(** * midiroll/roll.py: the MidiFile piano-roll rasterizer

    A shallow embedding of [class MidiFile(mido.MidiFile)] of
    [src/midiroll/roll.py]: the event demultiplexer [get_events], the length
    computation [get_total_ticks], the tempo lookup [get_tempo], the
    rasterizer [get_roll] and the part of [__init__] that builds the
    performance object (lines 19-38).

    Python integers are [Z] and [//] is [Z.div] (both round towards minus
    infinity for a positive divisor).  Python lists are Rocq lists, read with
    stdpp's lookup and written with stdpp's insert after the bounds check that
    Python performs.  Exceptions are an error monad.  Dictionaries are
    [gmap]s with string keys.  What a call depends on outside its
    arguments (whether Streamlit's cache serves it, how large an array
    numpy can allocate) is a [World] passed to the methods. *)

From Stdlib Require Import ZArith QArith Lia.
From stdpp Require Import base gmap list strings.

Open Scope Z_scope.

(** ** Exceptions *)

Inductive exn : Set :=
| TypeError | IndexError | ZeroDivisionError | ValueError | MemoryError.

Inductive result (A : Type) : Type :=
| Ok (a : A)
| Raise (e : exn).
Arguments Ok {A} a.
Arguments Raise {A} e.

Definition bind {A B} (m : result A) (f : A -> result B) : result B :=
  match m with
  | Ok a => f a
  | Raise e => Raise e
  end.

Notation "'do' x <- m ; k" := (bind m (fun x => k))
  (at level 10, x name, m at level 100, k at level 200).
Notation "'do' ' p <- m ; k" := (bind m (fun x => match x with p => k end))
  (at level 10, p pattern, m at level 100, k at level 200).

(** ** Python values that occur in a message's [dict()] *)

Inductive pyval : Type :=
| PInt (z : Z)
| PStr (s : string)
| PInts (l : list Z).

(** ** Messages

    The classes of [mido] a track can hold.  [Message] instances of the
    channel voice types carry a [channel] attribute; system messages
    ([sysex] and the like) and [UnknownMetaMessage] carry none.  Among the
    [MetaMessage] types one has a [channel] attribute, [channel_prefix]
    (with values 0..255): it is a constructor of its own, and
    [meta_message] stands for a [MetaMessage] of any other type.  [time] is
    the delta time in ticks. *)

Inductive Msg : Type :=
| note_on (channel note velocity time : Z)
| note_off (channel note velocity time : Z)
| control_change (channel control value time : Z)
| program_change (channel program time : Z)
| channel_voice (type : string) (channel : Z) (data : list (string * pyval)) (time : Z)
| system_message (type : string) (data : list (string * pyval)) (time : Z)
| meta_message (type : string) (data : list (string * pyval)) (time : Z)
| unknown_meta_message (type_byte : Z) (data : list Z) (time : Z)
| channel_prefix (channel : Z) (time : Z).

(** [msg.type] *)
Definition msg_type (msg : Msg) : string :=
  match msg with
  | note_on _ _ _ _ => "note_on"
  | note_off _ _ _ _ => "note_off"
  | control_change _ _ _ _ => "control_change"
  | program_change _ _ _ => "program_change"
  | channel_voice ty _ _ _ => ty
  | system_message ty _ _ => ty
  | meta_message ty _ _ => ty
  | unknown_meta_message _ _ _ => "unknown_meta"
  | channel_prefix _ _ => "channel_prefix"
  end.

(** [msg.time] *)
Definition msg_time (msg : Msg) : Z :=
  match msg with
  | note_on _ _ _ t | note_off _ _ _ t | control_change _ _ _ t
  | program_change _ _ t | channel_voice _ _ _ t | system_message _ _ t
  | meta_message _ _ t | unknown_meta_message _ _ t | channel_prefix _ t => t
  end.

(** [msg.channel]; [None] stands for the [AttributeError] that the access
    raises on a message without that attribute. *)
Definition msg_channel (msg : Msg) : option Z :=
  match msg with
  | note_on c _ _ _ | note_off c _ _ _ | control_change c _ _ _
  | program_change c _ _ | channel_voice _ c _ _ | channel_prefix c _ => Some c
  | system_message _ _ _ | meta_message _ _ _ | unknown_meta_message _ _ _ => None
  end.

(** [msg.dict()]: the attributes of the message as a dictionary. *)
Definition msg_dict (msg : Msg) : gmap string pyval :=
  match msg with
  | note_on c n v t =>
      list_to_map [("type", PStr "note_on"); ("time", PInt t); ("channel", PInt c);
                   ("note", PInt n); ("velocity", PInt v)]
  | note_off c n v t =>
      list_to_map [("type", PStr "note_off"); ("time", PInt t); ("channel", PInt c);
                   ("note", PInt n); ("velocity", PInt v)]
  | control_change c k v t =>
      list_to_map [("type", PStr "control_change"); ("time", PInt t); ("channel", PInt c);
                   ("control", PInt k); ("value", PInt v)]
  | program_change c p t =>
      list_to_map [("type", PStr "program_change"); ("time", PInt t); ("channel", PInt c);
                   ("program", PInt p)]
  | channel_voice ty c d t =>
      list_to_map (("type", PStr ty) :: ("time", PInt t) :: ("channel", PInt c) :: d)
  | system_message ty d t =>
      list_to_map (("type", PStr ty) :: ("time", PInt t) :: d)
  | meta_message ty d t =>
      list_to_map (("type", PStr ty) :: ("time", PInt t) :: d)
  | unknown_meta_message b d t =>
      list_to_map [("type", PStr "unknown_meta"); ("time", PInt t);
                   ("type_byte", PInt b); ("data", PInts d)]
  | channel_prefix c t =>
      list_to_map [("type", PStr "channel_prefix"); ("time", PInt t);
                   ("channel", PInt c)]
  end.

(** ** Python's [type(...)]

    The objects [type] is applied to in [get_events]: a message, whose type
    is its class, and the class [mido.UnknownMetaMessage], whose type is the
    metaclass [type], as for every class defined with a plain [class]
    statement. *)

Inductive pytype : Set :=
| cls_Message | cls_MetaMessage | cls_UnknownMetaMessage | cls_type.

Definition pytype_eqb (a b : pytype) : bool :=
  match a, b with
  | cls_Message, cls_Message | cls_MetaMessage, cls_MetaMessage
  | cls_UnknownMetaMessage, cls_UnknownMetaMessage | cls_type, cls_type => true
  | _, _ => false
  end.

(** [type(msg)] *)
Definition type_of_msg (msg : Msg) : pytype :=
  match msg with
  | meta_message _ _ _ | channel_prefix _ _ => cls_MetaMessage
  | unknown_meta_message _ _ _ => cls_UnknownMetaMessage
  | _ => cls_Message
  end.

(** [type(C)] for a class object [C] *)
Definition type_of_class (c : pytype) : pytype := cls_type.

(** ** Indexing

    [l[k]] for a Python integer [k] on a sequence of length [len]: a
    negative index counts from the end, anything outside raises
    [IndexError]. *)
Definition py_index (len : nat) (k : Z) : result nat :=
  if (0 <=? k) && (k <? Z.of_nat len) then Ok (Z.to_nat k)
  else if (- Z.of_nat len <=? k) && (k <? 0) then Ok (Z.to_nat (k + Z.of_nat len))
  else Raise IndexError.

(** A bound of a slice [a:b] on an axis of length [len]: negative bounds
    count from the end and every bound is clipped to the axis. *)
Definition slice_bound (len : nat) (k : Z) : nat :=
  if k <? 0 then Z.to_nat (Z.max 0 (k + Z.of_nat len))
  else Z.to_nat (Z.min k (Z.of_nat len)).

(** [a // b] with Python's [ZeroDivisionError] *)
Definition floordiv (a b : Z) : result Z :=
  if b =? 0 then Raise ZeroDivisionError else Ok (a / b).

(** ** The object under construction

    The attributes of [self] that [__init__] assigns before it calls
    [get_events] (lines 20-24), and [events] and [nch], assigned from its
    result at line 31.  The two ranges are the two-element lists
    [[min, max]]. *)

Record Self : Type := mkSelf {
  sr : Z;
  meta : gmap string (gmap string pyval);
  max_nch : nat;
  intensity_range : Z * Z;
  note_range : Z * Z;
  events : list (list Msg);
  nch : nat
}.

Definition set_meta (m : gmap string (gmap string pyval)) (self : Self) : Self :=
  mkSelf (sr self) m (max_nch self) (intensity_range self) (note_range self)
         (events self) (nch self).

Definition set_events (ev : list (list Msg)) (n : nat) (self : Self) : Self :=
  mkSelf (sr self) (meta self) (max_nch self) (intensity_range self) (note_range self)
         ev n.

Definition set_ranges (ir nr : Z * Z) (self : Self) : Self :=
  mkSelf (sr self) (meta self) (max_nch self) ir nr (events self) (nch self).

(** Lines 20-24 of [__init__]; [events] and [nch] do not exist yet, and
    nothing reads them before line 31 assigns them. *)
Definition init_self : Self :=
  mkSelf 10 ∅ 16 (100, 0) (127, 0) [] 0.

(** ** The process a call runs in

    What a call of a method depends on besides its arguments.  A method
    decorated with [@st.cache] (lines 54, 61, 70, 102) is served from
    Streamlit's cache when an earlier call with the same arguments, [self]
    included, has returned: the call then returns the value of that earlier
    call and the body does not run, so nothing is written to [self].
    [events_hit] and [roll_hit] tell whether the calls of [get_events] and
    of [get_roll] are served that way.  [get_tempo] and [get_total_ticks]
    write nothing and return the value their body computes either way.
    [index_max] is the largest array size numpy's index type holds (2^63 - 1
    on a 64-bit platform) and [memory] the number of [int8] cells numpy can
    allocate when the call is made. *)

Record World : Type := mkWorld {
  events_hit : bool;
  roll_hit : bool;
  index_max : Z;
  memory : Z
}.

(** The first construction of a file in a 64-bit process with memory for
    2^34 cells: nothing is cached. *)
Definition first_run : World := mkWorld false false (2 ^ 63 - 1) (2 ^ 34).

(** The world of the earlier call that stored a cache entry: it was able
    to allocate whatever the index type allows. *)
Definition unbounded (w : World) : World :=
  mkWorld (events_hit w) (roll_hit w) (index_max w) (index_max w).

(** [@st.cache] on a method whose body is [body]: on a hit the value the
    body returns on these arguments (the value the earlier call returned) is
    returned and [self] is left as it is; on a miss the body runs.  No entry
    exists for arguments on which the body raises. *)
Definition st_cache {A} (hit : bool) (self : Self) (body : result (Self * A))
    : result (Self * A) :=
  do '(self1, v) <- body; Ok (if hit then self else self1, v).

(** ** get_events (lines 70-100) *)

(** The body of the inner loop (lines 87-97) on one message.  A message
    with a [channel] is appended to that channel's list; the
    [AttributeError] of one without leads to the test
    [type(msg) != type(mido.UnknownMetaMessage)]. *)
Definition demux_msg (msg : Msg)
    (st : list (list Msg) * gmap string (gmap string pyval))
    : result (list (list Msg) * gmap string (gmap string pyval)) :=
  let '(events, meta) := st in
  match msg_channel msg with
  | Some channel =>
      do k <- py_index (length events) channel;
      match events !! k with
      | Some l => Ok (<[k := l ++ [msg]]> events, meta)
      | None => Raise IndexError
      end
  | None =>
      if negb (pytype_eqb (type_of_msg msg) (type_of_class cls_UnknownMetaMessage))
      then Ok (events, <[msg_type msg := msg_dict msg]> meta)
      else Ok (events, meta)
  end.

Fixpoint demux_track (track : list Msg)
    (st : list (list Msg) * gmap string (gmap string pyval))
    : result (list (list Msg) * gmap string (gmap string pyval)) :=
  match track with
  | [] => Ok st
  | msg :: rest => do st' <- demux_msg msg st; demux_track rest st'
  end.

Fixpoint demux_tracks (tracks : list (list Msg))
    (st : list (list Msg) * gmap string (gmap string pyval))
    : result (list (list Msg) * gmap string (gmap string pyval)) :=
  match tracks with
  | [] => Ok st
  | track :: rest => do st' <- demux_track track st; demux_tracks rest st'
  end.

(** The truth value of a list: [filter(None, events)] keeps the non-empty
    ones. *)
Definition truthy (l : list Msg) : bool :=
  match l with [] => false | _ :: _ => true end.

Fixpoint filter_truthy (events : list (list Msg)) : list (list Msg) :=
  match events with
  | [] => []
  | l :: rest => if truthy l then l :: filter_truthy rest else filter_truthy rest
  end.

(** The body of [get_events] (lines 79-100): the updated object
    ([self.meta] is written in place), and the returned pair
    [events, len(events)]. *)
Definition get_events_body (self : Self) (tracks : list (list Msg))
    : result (Self * (list (list Msg) * nat)) :=
  let events := replicate (max_nch self) [] in
  do '(events, meta') <- demux_tracks tracks (events, meta self);
  let events := filter_truthy events in
  Ok (set_meta meta' self, (events, length events)).

(** [get_events], decorated (line 70). *)
Definition get_events (w : World) (self : Self) (tracks : list (list Msg))
    : result (Self * (list (list Msg) * nat)) :=
  st_cache (events_hit w) self (get_events_body self tracks).

(** ** get_tempo (lines 54-59) *)

Definition get_tempo (self : Self) : pyval :=
  match meta self !! "set_tempo" with
  | Some d => match d !! "tempo" with
              | Some v => v
              | None => PInt 500000
              end
  | None => PInt 500000
  end.

(** ** get_total_ticks (lines 61-68) *)

(** [sum(msg.time for msg in channel)] *)
Definition sum_time (channel : list Msg) : Z :=
  foldl (fun acc msg => acc + msg_time msg) 0 channel.

Fixpoint total_ticks_loop (events : list (list Msg)) (channels : list nat)
    (max_ticks : Z) : result Z :=
  match channels with
  | [] => Ok max_ticks
  | channel :: rest =>
      match events !! channel with
      | None => Raise IndexError
      | Some l =>
          let ticks := sum_time l in
          total_ticks_loop events rest
            (if ticks >? max_ticks then ticks else max_ticks)
      end
  end.

Definition get_total_ticks (self : Self) : result Z :=
  total_ticks_loop (events self) (seq 0 (nch self)) 0.

(** ** get_roll (lines 102-186) *)

(** The cells of [roll] are [int8]: a stored value is reduced to
    [-128 .. 127]. *)
Definition wrap_int8 (v : Z) : Z := (v + 128) mod 256 - 128.

(** [np.zeros((n0, n1, n2), dtype="int8")]: a negative dimension, a
    dimension or a size beyond the index range are refused with
    [ValueError]; a size numpy cannot allocate raises [MemoryError]. *)
Definition np_zeros (w : World) (n0 n1 : nat) (n2 : Z)
    : result (list (list (list Z))) :=
  if n2 <? 0 then Raise ValueError
  else if (index_max w <? n2)
          || (index_max w <? Z.of_nat n0 * Z.of_nat n1 * n2)
  then Raise ValueError
  else if memory w <? Z.of_nat n0 * Z.of_nat n1 * n2 then Raise MemoryError
  else Ok (replicate n0 (replicate n1 (replicate (Z.to_nat n2) 0))).

(** [row[lo:hi] = v] on one row of the matrix; [hi = None] is the open
    slice [row[lo:]]. *)
Definition fill_slice (row : list Z) (lo : Z) (hi : option Z) (v : Z) : list Z :=
  let a := slice_bound (length row) lo in
  let b := match hi with
           | Some h => slice_bound (length row) h
           | None => length row
           end in
  imap (fun i x => if (a <=? i)%nat && (i <? b)%nat then wrap_int8 v else x) row.

(** [roll[idx, note, lo:hi] = v] *)
Definition roll_assign (roll : list (list (list Z))) (idx : nat) (note : Z)
    (lo : Z) (hi : option Z) (v : Z) : result (list (list (list Z))) :=
  match roll !! idx with
  | None => Raise IndexError
  | Some plane =>
      do k <- py_index (length plane) note;
      match plane !! k with
      | None => Raise IndexError
      | Some row => Ok (<[idx := <[k := fill_slice row lo hi v]> plane]> roll)
      end
  end.

(** The variables of [get_roll] that change while it runs, with the two
    ranges of [self] it writes.  A slot of [register_note] is [None] for
    the integer [-1] and [Some (end_time, intensity)] for a tuple.
    [register_timbre] is an array of floats that only ever holds the
    integers stored into it. *)
Record Raster : Type := mkRaster {
  roll : list (list (list Z));
  register_note : list (option (Z * Z));
  register_timbre : list Z;
  time_counter : Z;
  volume : Z;
  r_intensity_range : Z * Z;
  r_note_range : Z * Z
}.

(** Lines 145-148 and 157-160: the two [if]s on a range [[min, max]]. *)
Definition update_range (r : Z * Z) (x : Z) : Z * Z :=
  let r1 := if fst r >? x then (x, snd r) else r in
  if snd r1 <? x then (fst r1, x) else r1.

(** [volume * msg.velocity // 127] (line 143) *)
Definition intensity_of (volume velocity : Z) : Z := volume * velocity / 127.

(** The body of the loop over a channel's messages (lines 122-175).  The
    four [if]s on [msg.type] are exclusive, hence one [match]; line 175 ends
    every case. *)
Definition handle_msg (self : Self) (idx : nat) (msg : Msg) (st : Raster)
    : result Raster :=
  do st1 <-
    match msg with
    | control_change _ control value _ =>
        let volume1 := if control =? 7 then 100 * value / 127 else volume st in
        let volume2 := if control =? 11 then volume1 * (value / 127) else volume1 in
        Ok (mkRaster (roll st) (register_note st) (register_timbre st)
                     (time_counter st) volume2
                     (r_intensity_range st) (r_note_range st))
    | program_change _ program _ =>
        if (idx <? length (register_timbre st))%nat
        then Ok (mkRaster (roll st) (register_note st)
                          (<[idx := program]> (register_timbre st))
                          (time_counter st) (volume st)
                          (r_intensity_range st) (r_note_range st))
        else Raise IndexError
    | note_on _ note velocity time =>
        do note_on_end_time <- floordiv (time_counter st + time) (sr self);
        let intensity := intensity_of (volume st) velocity in
        let ir := update_range (r_intensity_range st) intensity in
        do k <- py_index (length (register_note st)) note;
        do roll1 <-
          match register_note st !! k with
          | Some (Some (last_end_time, last_intensity)) =>
              roll_assign (roll st) idx note last_end_time (Some note_on_end_time)
                          last_intensity
          | _ => Ok (roll st)
          end;
        Ok (mkRaster roll1
                     (<[k := Some (note_on_end_time, intensity)]> (register_note st))
                     (register_timbre st) (time_counter st) (volume st)
                     ir (update_range (r_note_range st) note))
    | note_off _ note velocity time =>
        do note_off_end_time <- floordiv (time_counter st + time) (sr self);
        do k <- py_index (length (register_note st)) note;
        match register_note st !! k with
        | Some (Some (last_end_time, last_intensity)) =>
            do roll1 <- roll_assign (roll st) idx note last_end_time
                                    (Some note_off_end_time) last_intensity;
            Ok (mkRaster roll1 (<[k := None]> (register_note st))
                         (register_timbre st) (time_counter st) (volume st)
                         (r_intensity_range st) (r_note_range st))
        | _ => Raise TypeError
        end
    | _ => Ok st
    end;
  Ok (mkRaster (roll st1) (register_note st1) (register_timbre st1)
               (time_counter st1 + msg_time msg) (volume st1)
               (r_intensity_range st1) (r_note_range st1)).

(** [for msg in channel: ...] *)
Fixpoint run_msgs (self : Self) (idx : nat) (channel : list Msg) (st : Raster)
    : result Raster :=
  match channel with
  | [] => Ok st
  | msg :: rest => do st' <- handle_msg self idx msg st; run_msgs self idx rest st'
  end.

(** The closing loop (lines 178-184): [for key, data in
    enumerate(register_note)], which reads slot [key] when it reaches it, and
    whose body ends with [register_note[idx] = -1]. *)
Fixpoint close_loop (idx : nat) (keys : list nat)
    (st : list (list (list Z)) * list (option (Z * Z)))
    : result (list (list (list Z)) * list (option (Z * Z))) :=
  match keys with
  | [] => Ok st
  | key :: rest =>
      let '(roll, register_note) := st in
      do roll1 <-
        match register_note !! key with
        | Some (Some (note_on_end_time, intensity)) =>
            roll_assign roll idx (Z.of_nat key) note_on_end_time None intensity
        | _ => Ok roll
        end;
      if (idx <? length register_note)%nat
      then close_loop idx rest (roll1, <[idx := None]> register_note)
      else Raise IndexError
  end.

(** Lines 115-116: [time_counter = 0] and [volume = 100] at the top of the
    body of the loop over the channels.  Nothing else is assigned there:
    [roll], [register_note] and [register_timbre] were created once, before
    the loop (lines 109-112). *)
Definition pass_start (st : Raster) : Raster :=
  mkRaster (roll st) (register_note st) (register_timbre st)
           0 100 (r_intensity_range st) (r_note_range st).

(** The body of the loop over the channels (lines 115-184). *)
Definition channel_pass (self : Self) (idx : nat) (channel : list Msg) (st : Raster)
    : result Raster :=
  do st1 <- run_msgs self idx channel (pass_start st);
  do '(roll2, register2) <-
    close_loop idx (seq 0 (length (register_note st1)))
               (roll st1, register_note st1);
  Ok (mkRaster roll2 register2 (register_timbre st1)
               (time_counter st1) (volume st1)
               (r_intensity_range st1) (r_note_range st1)).

(** [for idx, channel in enumerate(events): ...] *)
Fixpoint channels_loop (self : Self) (idx : nat) (events : list (list Msg))
    (st : Raster) : result Raster :=
  match events with
  | [] => Ok st
  | channel :: rest =>
      do st' <- channel_pass self idx channel st;
      channels_loop self (S idx) rest st'
  end.

(** The state when the loop over the channels is entered (lines 107-112).
    [time_counter] and [volume] are assigned at the top of each pass. *)
Definition raster_init (w : World) (self : Self) : result Raster :=
  do length_ticks <- get_total_ticks self;
  do bins <- floordiv length_ticks (sr self);
  do roll0 <- np_zeros w (nch self) 128 bins;
  Ok (mkRaster roll0 (replicate 128 None) (replicate (nch self) 1)
               0 100 (intensity_range self) (note_range self)).

(** The body of [get_roll] (lines 107-186): the updated object (the two
    ranges are written in place) and the returned matrix. *)
Definition get_roll_body (w : World) (self : Self) (events : list (list Msg))
    : result (Self * list (list (list Z))) :=
  do st0 <- raster_init w self;
  do st <- channels_loop self 0 events st0;
  Ok (set_ranges (r_intensity_range st) (r_note_range st) self, roll st).

(** [get_roll], decorated (line 102).  The entry of a hit was computed by
    a call that could allocate the matrix. *)
Definition get_roll (w : World) (self : Self) (events : list (list Msg))
    : result (Self * list (list (list Z))) :=
  st_cache (roll_hit w) self
    (get_roll_body (if roll_hit w then unbounded w else w) self events).

(** ** __init__ (lines 19-38) *)

(** [mido.tick2second]: [scale = tempo * 1e-6 / ticks_per_beat], then
    [tick * scale].  Floating-point numbers are modelled by exact rationals;
    the theorems below use only whether such a number is zero, on which the
    two agree here (a product of a tick count and a scale is zero exactly
    when one factor is). *)
Definition tick2second (tick ticks_per_beat : Z) (tempo : pyval) : result Q :=
  match tempo with
  | PInt t =>
      if ticks_per_beat =? 0 then Raise ZeroDivisionError
      else Ok (inject_Z tick * (inject_Z t * (1 # 1000000) / inject_Z ticks_per_beat))%Q
  | _ => Raise TypeError
  end.

(** [a / b] of an integer by a float *)
Definition truediv (a : Z) (b : Q) : result Q :=
  if Qeq_bool b 0 then Raise ZeroDivisionError else Ok (inject_Z a / b)%Q.

(** The performance object once line 38 is passed. *)
Record MidiFile : Type := mkMidiFile {
  mf_self : Self;
  mf_roll : list (list (list Z));
  length_ticks : Z;
  length_seconds : Q;
  ticks_per_sec : Q
}.

(** [MidiFile(midifile)]: [tracks] and [ticks_per_beat] are what
    [mido.MidiFile.__init__] reads from the file (line 27). *)
Definition MidiFile_init (w : World) (tracks : list (list Msg))
    (ticks_per_beat : Z) : result MidiFile :=
  let self := init_self in
  do '(self1, (ev, n)) <- get_events w self tracks;
  let self2 := set_events ev n self1 in
  do '(self3, roll) <- get_roll w self2 (events self2);
  do length_ticks <- get_total_ticks self3;
  do length_seconds <- tick2second length_ticks ticks_per_beat (get_tempo self3);
  do ticks_per_sec <- truediv length_ticks length_seconds;
  Ok (mkMidiFile self3 roll length_ticks length_seconds ticks_per_sec).

(** * Predicates used in the statements *)

(** A plane of [n1] rows of [n2] bins, a matrix of such planes, and an
    update that keeps the number of planes and that shape. *)
Definition plane_shape (n1 n2 : nat) (plane : list (list Z)) : Prop :=
  length plane = n1 /\ Forall (fun row => length row = n2) plane.

Definition roll_shape (n1 n2 : nat) (roll : list (list (list Z))) : Prop :=
  Forall (plane_shape n1 n2) roll.

Definition same_shape (n1 n2 : nat) (r r' : list (list (list Z))) : Prop :=
  length r' = length r /\ (roll_shape n1 n2 r -> roll_shape n1 n2 r').

(** [msg.type == "note_on"] *)
Definition is_note_on (msg : Msg) : bool :=
  match msg with note_on _ _ _ _ => true | _ => false end.

(** [r'] is [r] with its minimum lowered or kept and its maximum raised or
    kept. *)
Definition tightened (r r' : Z * Z) : Prop :=
  fst r' <= fst r /\ snd r <= snd r'.

(** min <= max in both ranges *)
Definition ranges_ordered (ir nr : Z * Z) : Prop :=
  fst ir <= snd ir /\ fst nr <= snd nr.

(** What a stretch of the rasterization does to the two ranges, given
    whether a [note_on] occurs in it. *)
Definition ranges_step (seen : bool) (ir nr ir' nr' : Z * Z) : Prop :=
  tightened ir ir' /\ tightened nr nr' /\
  (seen = false -> ir' = ir /\ nr' = nr) /\
  (seen = true -> ranges_ordered ir' nr').

(** Velocities and control values as the MIDI format has them. *)
Definition valid_msg (msg : Msg) : Prop :=
  match msg with
  | note_on _ _ velocity _ | note_off _ _ velocity _ => 0 <= velocity <= 127
  | control_change _ _ value _ => 0 <= value <= 127
  | _ => True
  end.

(** A registered intensity, the cells of the matrix, and the state of a
    pass, within 0..100. *)
Definition slot_bounded (slot : option (Z * Z)) : Prop :=
  forall e i, slot = Some (e, i) -> 0 <= i <= 100.

Definition cells_bounded (roll : list (list (list Z))) : Prop :=
  Forall (Forall (Forall (fun v => 0 <= v <= 100))) roll.

Definition bounded (st : Raster) : Prop :=
  0 <= volume st <= 100 /\
  Forall slot_bounded (register_note st) /\
  cells_bounded (roll st).

(** [msg.is_cc(7)] *)
Definition is_main_volume (msg : Msg) : bool :=
  match msg with
  | control_change _ control _ _ => control =? 7
  | _ => false
  end.

(** Row [k] of plane [idx] of the matrix. *)
Definition row_at (roll : list (list (list Z))) (idx k : nat) : option (list Z) :=
  match roll !! idx with
  | Some plane => plane !! k
  | None => None
  end.

(** Plane [idx], if there is one, has [n] rows. *)
Definition plane_rows (n : nat) (roll : list (list (list Z))) (idx : nat) : Prop :=
  forall plane, roll !! idx = Some plane -> length plane = n.

(** The messages of all tracks in traversal order, and those of them that
    carry channel [c]: the timeline of that channel. *)
Definition timeline (tracks : list (list Msg)) (c : nat) : list Msg :=
  filter (fun m => msg_channel m = Some (Z.of_nat c)) (concat tracks).

(** Every channel number is one of the [n] lists' indices. *)
Definition channel_in_range (n : nat) (msg : Msg) : Prop :=
  match msg_channel msg with
  | Some c => 0 <= c < Z.of_nat n
  | None => True
  end.

(** The messages without a channel whose type name is [key]. *)
Definition keyed (key : string) (msgs : list Msg) : list Msg :=
  filter (fun m => msg_channel m = None /\ msg_type m = key) msgs.

(** The slot the closing loop of the pass of channel [idx] finds for pitch
    [key], given the register [reg] the messages left: the loop clears slot
    [idx] in its first round, before it reads any slot but slot 0. *)
Definition closing_slot (idx : nat) (reg : list (option (Z * Z))) (key : nat)
    : option (Z * Z) :=
  if (key =? idx)%nat && negb (idx =? 0)%nat then None
  else match reg !! key with
       | Some slot => slot
       | None => None
       end.

(** [msg] is a [note_on] or [note_off] whose [note] indexes slot [k] of
    the 128 slots. *)
Definition touches (k : nat) (msg : Msg) : bool :=
  match msg with
  | note_on _ note _ _ | note_off _ note _ _ =>
      match py_index 128 note with
      | Ok k' => (k' =? k)%nat
      | Raise _ => false
      end
  | _ => false
  end.

(** The state [st] with other values for the two ranges. *)
Definition with_ranges (ir nr : Z * Z) (st : Raster) : Raster :=
  mkRaster (roll st) (register_note st) (register_timbre st)
           (time_counter st) (volume st) ir nr.

(** The pitches of the [note_on] messages of a channel, and of all
    channels, in order. *)
Definition pitches_on (channel : list Msg) : list Z :=
  omap (fun m => match m with note_on _ note _ _ => Some note | _ => None end)
       channel.

Definition all_pitches_on (events : list (list Msg)) : list Z :=
  concat (pitches_on <$> events).

(** Pitches as the MIDI format has them. *)
Definition pitch_ok (msg : Msg) : Prop :=
  match msg with
  | note_on _ note _ _ | note_off _ note _ _ => 0 <= note < 128
  | _ => True
  end.

(** Every [note_off] of the channel closes a [note_on] of the same pitch
    that came before it in the channel and is not closed yet; [active]
    tells the pitches that are open. *)
Fixpoint well_bracketed (active : list bool) (channel : list Msg) : bool :=
  match channel with
  | [] => true
  | note_on _ note _ _ :: rest =>
      well_bracketed (<[Z.to_nat note := true]> active) rest
  | note_off _ note _ _ :: rest =>
      match active !! Z.to_nat note with
      | Some true => well_bracketed (<[Z.to_nat note := false]> active) rest
      | _ => false
      end
  | _ :: rest => well_bracketed active rest
  end.

(** The slots of the open pitches hold a tuple. *)
Definition covers (active : list bool) (reg : list (option (Z * Z))) : Prop :=
  forall k, active !! k = Some true -> exists e i, reg !! k = Some (Some (e, i)).

(** The sizes [get_roll] sets up: [n0] planes of 128 rows of [n2] bins,
    128 slots, [n0] timbres. *)
Definition sized (n0 n2 : nat) (st : Raster) : Prop :=
  length (roll st) = n0 /\ roll_shape 128 n2 (roll st) /\
  length (register_note st) = 128%nat /\
  length (register_timbre st) = n0.

(** The number of bins and of cells of the matrix [get_roll] allocates
    for [self] (line 109). *)
Definition roll_bins (self : Self) : Z :=
  match get_total_ticks self with
  | Ok t => t / sr self
  | Raise _ => 0
  end.

Definition roll_cells (self : Self) : Z :=
  Z.of_nat (nch self) * 128 * roll_bins self.

(** * Properties *)

(** ** The error monad *)

Lemma bind_ok {A B} (m : result A) (f : A -> result B) (b : B) :
  bind m f = Ok b -> exists a, m = Ok a /\ f a = Ok b.
Proof. destruct m as [a|e]; simpl; [eauto | discriminate]. Qed.

Tactic Notation "bind_inv" hyp(H) "as" simple_intropattern(a) ident(Ha) :=
  apply bind_ok in H; destruct H as (a & Ha & H).

(** ** Indexing and slices *)

Lemma py_index_lt len k i : py_index len k = Ok i -> (i < len)%nat.
Proof.
  unfold py_index. intros H.
  destruct (0 <=? k) eqn:E1; destruct (k <? Z.of_nat len) eqn:E2; simpl in H;
    try (injection H as <-; lia);
    destruct (- Z.of_nat len <=? k) eqn:E3; destruct (k <? 0) eqn:E4; simpl in H;
    try discriminate; injection H as <-; lia.
Qed.

Lemma py_index_nonneg len k :
  0 <= k < Z.of_nat len -> py_index len k = Ok (Z.to_nat k).
Proof.
  intros [H1 H2]. unfold py_index.
  apply Z.leb_le in H1. apply Z.ltb_lt in H2. by rewrite H1, H2.
Qed.

Lemma slice_bound_nonneg len k :
  0 <= k -> slice_bound len k = Z.to_nat (Z.min k (Z.of_nat len)).
Proof.
  intros H. unfold slice_bound. destruct (k <? 0) eqn:E; [lia | done].
Qed.

Lemma length_fill_slice row lo hi v : length (fill_slice row lo hi v) = length row.
Proof. unfold fill_slice. apply length_imap. Qed.

Lemma lookup_fill_slice row lo hi v i x :
  row !! i = Some x ->
  fill_slice row lo hi v !! i =
    Some (if (slice_bound (length row) lo <=? i)%nat
             && (i <? match hi with
                      | Some h => slice_bound (length row) h
                      | None => length row
                      end)%nat
          then wrap_int8 v else x).
Proof. intros H. unfold fill_slice. rewrite list_lookup_imap, H. done. Qed.

Lemma floordiv_ok a b : b <> 0 -> floordiv a b = Ok (a / b).
Proof. intros H. unfold floordiv. by apply Z.eqb_neq in H as ->. Qed.

Lemma floordiv_inv a b q : floordiv a b = Ok q -> b <> 0 /\ q = a / b.
Proof.
  unfold floordiv. destruct (b =? 0) eqn:E; [discriminate |].
  intros [= <-]. by apply Z.eqb_neq in E.
Qed.

Lemma wrap_int8_id v : -128 <= v <= 127 -> wrap_int8 v = v.
Proof.
  intros H. unfold wrap_int8.
  rewrite Z.mod_small by lia. lia.
Qed.

(** ** The shape of the matrix *)

Lemma np_zeros_inv w n0 n1 n2 roll :
  np_zeros w n0 n1 n2 = Ok roll ->
  0 <= n2 /\ roll = replicate n0 (replicate n1 (replicate (Z.to_nat n2) 0)).
Proof.
  unfold np_zeros. destruct (n2 <? 0) eqn:E; [discriminate |].
  destruct (_ || _); [discriminate |].
  destruct (memory w <? _); [discriminate |].
  intros [= <-]. split; [lia | done].
Qed.

Lemma np_zeros_ok w n0 n1 n2 :
  0 <= n2 <= index_max w ->
  Z.of_nat n0 * Z.of_nat n1 * n2 <= index_max w ->
  Z.of_nat n0 * Z.of_nat n1 * n2 <= memory w ->
  np_zeros w n0 n1 n2 =
    Ok (replicate n0 (replicate n1 (replicate (Z.to_nat n2) 0))).
Proof.
  intros H2 Hidx Hmem. unfold np_zeros.
  assert ((n2 <? 0) = false) as -> by lia.
  assert ((index_max w <? n2) = false) as -> by lia.
  assert ((index_max w <? Z.of_nat n0 * Z.of_nat n1 * n2) = false) as -> by lia.
  by assert ((memory w <? Z.of_nat n0 * Z.of_nat n1 * n2) = false) as -> by lia.
Qed.

Lemma np_zeros_shape w n0 n1 n2 roll :
  np_zeros w n0 n1 n2 = Ok roll ->
  length roll = n0 /\ roll_shape n1 (Z.to_nat n2) roll.
Proof.
  intros [_ ->]%np_zeros_inv. split; [apply length_replicate |].
  apply Forall_replicate. split; [apply length_replicate |].
  apply Forall_replicate, length_replicate.
Qed.

(** What [raster_init] returns, whatever the world that let it return. *)
Lemma raster_init_inv w self st0 :
  raster_init w self = Ok st0 ->
  exists t,
    get_total_ticks self = Ok t /\ sr self <> 0 /\ 0 <= t / sr self /\
    st0 = mkRaster (replicate (nch self)
                      (replicate 128 (replicate (Z.to_nat (t / sr self)) 0)))
                   (replicate 128 None) (replicate (nch self) 1) 0 100
                   (intensity_range self) (note_range self).
Proof.
  unfold raster_init. intros H. bind_inv H as t Ht. bind_inv H as b Hb.
  bind_inv H as r0 Hr0. injection H as <-.
  apply floordiv_inv in Hb as [Hsr ->].
  apply np_zeros_inv in Hr0 as [H0 ->]. by exists t.
Qed.

(** A call of [get_roll] that returns: the body ran to its end, now or when
    the entry was stored, and on a hit [self] is as it was. *)
Lemma get_roll_inv w self ev self1 r :
  get_roll w self ev = Ok (self1, r) ->
  exists w0 st0 st,
    raster_init w0 self = Ok st0 /\
    channels_loop self 0 ev st0 = Ok st /\
    r = roll st /\
    self1 = (if roll_hit w then self
             else set_ranges (r_intensity_range st) (r_note_range st) self).
Proof.
  unfold get_roll, st_cache. intros H. bind_inv H as p Hp.
  destruct p as [self' r']. injection H as <- <-.
  unfold get_roll_body in Hp. bind_inv Hp as st0 H0. bind_inv Hp as st Hloop.
  injection Hp as <- <-. eexists _, st0, st.
  split; [exact H0 |]. split; [done |]. split; [done |].
  by destruct (roll_hit w).
Qed.

Lemma np_zeros_fits w n0 n1 n2 roll :
  np_zeros w n0 n1 n2 = Ok roll ->
  0 <= n2 <= index_max w /\
  Z.of_nat n0 * Z.of_nat n1 * n2 <= index_max w /\
  Z.of_nat n0 * Z.of_nat n1 * n2 <= memory w.
Proof.
  unfold np_zeros. destruct (n2 <? 0) eqn:E0; [discriminate |].
  destruct (_ || _) eqn:E12; [discriminate |].
  apply orb_false_iff in E12 as [E1 E2].
  destruct (memory w <? _) eqn:E3; [discriminate |]. intros _. lia.
Qed.

Lemma raster_init_fits w self st0 :
  raster_init w self = Ok st0 ->
  sr self <> 0 /\ 0 <= roll_bins self <= index_max w /\
  roll_cells self <= index_max w /\ roll_cells self <= memory w.
Proof.
  unfold raster_init, roll_cells, roll_bins. intros H.
  bind_inv H as t Ht. bind_inv H as b Hb. bind_inv H as r0 Hr0.
  rewrite Ht. apply floordiv_inv in Hb as [Hsr ->].
  apply np_zeros_fits in Hr0. change (Z.of_nat 128) with 128 in Hr0. done.
Qed.

Lemma raster_init_ok w self :
  is_Some (match get_total_ticks self with Ok t => Some t | Raise _ => None end) ->
  sr self <> 0 -> 0 <= roll_bins self <= index_max w ->
  roll_cells self <= index_max w -> roll_cells self <= memory w ->
  raster_init w self =
    Ok (mkRaster (replicate (nch self)
                    (replicate 128 (replicate (Z.to_nat (roll_bins self)) 0)))
                 (replicate 128 None) (replicate (nch self) 1) 0 100
                 (intensity_range self) (note_range self)).
Proof.
  unfold raster_init, roll_cells, roll_bins.
  destruct (get_total_ticks self) as [t|e]; [| by intros [? [=]]].
  intros _ Hsr Hb Hi Hm. cbn [bind]. rewrite floordiv_ok by done. cbn [bind].
  rewrite np_zeros_ok; [done | done | |]; by change (Z.of_nat 128) with 128.
Qed.

(** The world in which the body of a returning call ran has the index
    range of the call's world. *)
Lemma get_roll_inv_world w self ev self1 r :
  get_roll w self ev = Ok (self1, r) ->
  exists w0 st0 st,
    raster_init w0 self = Ok st0 /\
    channels_loop self 0 ev st0 = Ok st /\
    r = roll st /\
    self1 = (if roll_hit w then self
             else set_ranges (r_intensity_range st) (r_note_range st) self) /\
    index_max w0 = index_max w /\
    (roll_hit w = false -> w0 = w).
Proof.
  unfold get_roll, st_cache. intros H. bind_inv H as p Hp.
  destruct p as [self' r']. injection H as <- <-.
  unfold get_roll_body in Hp. bind_inv Hp as st0 H0. bind_inv Hp as st Hloop.
  injection Hp as <- <-. eexists _, st0, st.
  split; [exact H0 |]. split; [done |]. split; [done |].
  destruct (roll_hit w); by repeat split.
Qed.

Lemma roll_assign_length roll idx note lo hi v roll' :
  roll_assign roll idx note lo hi v = Ok roll' -> length roll' = length roll.
Proof.
  unfold roll_assign. destruct (roll !! idx) as [plane|]; [| discriminate].
  intros H. bind_inv H as k Hk. destruct (plane !! k); [| discriminate].
  injection H as <-. apply length_insert.
Qed.

Section Shape.
(** Rows per plane and bins per row, fixed when [roll] is allocated. *)
Variables n1 n2 : nat.

Lemma roll_assign_shape roll idx note lo hi v roll' :
  roll_assign roll idx note lo hi v = Ok roll' ->
  roll_shape n1 n2 roll -> roll_shape n1 n2 roll'.
Proof.
  unfold roll_assign.
  destruct (roll !! idx) as [plane|] eqn:Hp; [| discriminate].
  intros H Hs. bind_inv H as k Hk.
  destruct (plane !! k) as [row|] eqn:Hr; [| discriminate].
  injection H as <-.
  pose proof (proj1 (Forall_lookup _ _) Hs _ _ Hp) as [Hl Hrows].
  apply Forall_insert; [done |]. split.
  - by rewrite length_insert.
  - apply Forall_insert; [done |]. rewrite length_fill_slice.
    exact (proj1 (Forall_lookup _ _) Hrows _ _ Hr).
Qed.

Lemma same_shape_refl r : same_shape n1 n2 r r.
Proof. by split. Qed.

Lemma same_shape_trans r1 r2 r3 :
  same_shape n1 n2 r1 r2 -> same_shape n1 n2 r2 r3 -> same_shape n1 n2 r1 r3.
Proof. intros [H1 H2] [H3 H4]. split; [congruence | auto]. Qed.

Lemma roll_assign_same_shape roll idx note lo hi v roll' :
  roll_assign roll idx note lo hi v = Ok roll' -> same_shape n1 n2 roll roll'.
Proof.
  intros H. split; [by eapply roll_assign_length | by eapply roll_assign_shape].
Qed.

Lemma handle_msg_same_shape self idx msg st st' :
  handle_msg self idx msg st = Ok st' -> same_shape n1 n2 (roll st) (roll st').
Proof.
  unfold handle_msg. intros H. bind_inv H as st1 H1. injection H as <-. simpl.
  destruct msg; try (injection H1 as <-; apply same_shape_refl).
  - (* note_on *)
    bind_inv H1 as e He. bind_inv H1 as k Hk. bind_inv H1 as r1 Hr1.
    injection H1 as <-. simpl.
    destruct (register_note st !! k) as [[[e0 i0]|]|];
      try (injection Hr1 as <-; apply same_shape_refl).
    by eapply roll_assign_same_shape.
  - (* note_off *)
    bind_inv H1 as e He. bind_inv H1 as k Hk.
    destruct (register_note st !! k) as [[[e0 i0]|]|]; try discriminate.
    bind_inv H1 as r1 Hr1. injection H1 as <-. simpl.
    by eapply roll_assign_same_shape.
  - (* program_change *)
    destruct (idx <? length (register_timbre st))%nat; [| discriminate].
    injection H1 as <-. apply same_shape_refl.
Qed.

Lemma run_msgs_same_shape self idx channel st st' :
  run_msgs self idx channel st = Ok st' -> same_shape n1 n2 (roll st) (roll st').
Proof.
  revert st. induction channel as [|msg rest IH]; simpl; intros st H.
  - injection H as <-. apply same_shape_refl.
  - bind_inv H as st1 H1. eapply same_shape_trans.
    + by eapply handle_msg_same_shape.
    + by apply IH.
Qed.

Lemma close_loop_same_shape idx keys r reg r' reg' :
  close_loop idx keys (r, reg) = Ok (r', reg') -> same_shape n1 n2 r r'.
Proof.
  revert r reg. induction keys as [|key rest IH]; simpl; intros r reg H.
  - injection H as <- <-. apply same_shape_refl.
  - bind_inv H as r1 Hr1.
    destruct (idx <? length reg)%nat; [| discriminate].
    apply IH in H. eapply same_shape_trans; [| exact H].
    destruct (reg !! key) as [[[e i]|]|];
      try (injection Hr1 as <-; apply same_shape_refl).
    by eapply roll_assign_same_shape.
Qed.

Lemma channel_pass_same_shape self idx channel st st' :
  channel_pass self idx channel st = Ok st' ->
  same_shape n1 n2 (roll st) (roll st').
Proof.
  unfold channel_pass. intros H. bind_inv H as st1 H1.
  bind_inv H as p Hp. destruct p as [r2 reg2]. injection H as <-. simpl.
  apply run_msgs_same_shape in H1. simpl in H1.
  eapply same_shape_trans; [exact H1 |].
  by eapply close_loop_same_shape.
Qed.

Lemma channels_loop_same_shape self idx events st st' :
  channels_loop self idx events st = Ok st' ->
  same_shape n1 n2 (roll st) (roll st').
Proof.
  revert idx st. induction events as [|channel rest IH]; simpl; intros idx st H.
  - injection H as <-. apply same_shape_refl.
  - bind_inv H as st1 H1. eapply same_shape_trans.
    + by eapply channel_pass_same_shape.
    + by eapply IH.
Qed.
End Shape.

(** ** get_total_ticks *)

Lemma sum_time_from_nonneg l acc :
  Forall (fun m => 0 <= msg_time m) l -> 0 <= acc ->
  0 <= foldl (fun acc msg => acc + msg_time msg) acc l.
Proof.
  revert acc. induction l as [|m l IH]; simpl; intros acc Hl Hacc; [done |].
  inversion Hl; subst. apply IH; [done | lia].
Qed.

Lemma sum_time_nonneg l :
  Forall (fun m => 0 <= msg_time m) l -> 0 <= sum_time l.
Proof. intros H. apply sum_time_from_nonneg; [done | lia]. Qed.

Lemma total_ticks_loop_spec events n :
  forall i m, (i + n <= length events)%nat ->
  exists t, total_ticks_loop events (seq i n) m = Ok t /\ m <= t /\
    (forall j c, (i <= j < i + n)%nat -> events !! j = Some c -> sum_time c <= t) /\
    (t = m \/ exists j c, (i <= j < i + n)%nat /\ events !! j = Some c /\ t = sum_time c).
Proof.
  induction n as [|n IH]; simpl; intros i m Hlen.
  - exists m. repeat split; [lia | intros; lia | by left].
  - destruct (events !! i) as [l|] eqn:Hl.
    2:{ apply lookup_ge_None in Hl. lia. }
    destruct (IH (S i) (if sum_time l >? m then sum_time l else m)) as
      (t & Ht & Hm & Hall & Hex); [lia |].
    exists t. split; [done |].
    assert (m <= t /\ sum_time l <= t) as [Hmt Hlt].
    { destruct (sum_time l >? m) eqn:E; lia. }
    split; [done |]. split.
    + intros j c Hj Hc. destruct (decide (j = i)) as [->|Hne].
      * rewrite Hl in Hc. by injection Hc as <-.
      * apply (Hall j c); [lia | done].
    + destruct Hex as [Heq | (j & c & Hj & Hc & Heq)].
      * destruct (sum_time l >? m) eqn:E; [| by left].
        right. exists i, l. split; [lia | done].
      * right. exists j, c. split; [lia | done].
Qed.

(** ** get_events *)





Lemma filter_truthy_nonempty ev : Forall (fun l => l <> []) (filter_truthy ev).
Proof.
  induction ev as [|l ev IH]; simpl; [done |].
  destruct l; simpl; [done | by constructor].
Qed.

(** The source's [filter(None, events)] against stdpp's [filter]. *)
Lemma filter_truthy_filter ev :
  filter_truthy ev = filter (fun l => l <> []) ev.
Proof.
  induction ev as [|l ev IH]; simpl; [done |].
  destruct l; simpl.
  - rewrite filter_cons_False by naive_solver. done.
  - rewrite filter_cons_True by done. by rewrite IH.
Qed.

Lemma get_events_spec w self tracks self1 ev n :
  get_events w self tracks = Ok (self1, (ev, n)) ->
  exists all mt,
    demux_tracks tracks (replicate (max_nch self) [], meta self) = Ok (all, mt) /\
    ev = filter_truthy all /\ n = length ev /\
    self1 = (if events_hit w then self else set_meta mt self).
Proof.
  unfold get_events, st_cache, get_events_body. intros H.
  bind_inv H as p Hp. destruct p as [self' [ev' n']]. injection H as <- <- <-.
  bind_inv Hp as q Hq. destruct q as [all mt]. injection Hp as <- <- <-.
  by exists all, mt.
Qed.

Lemma get_total_ticks_spec self :
  nch self = length (events self) ->
  Forall (Forall (fun m => 0 <= msg_time m)) (events self) ->
  exists t, get_total_ticks self = Ok t /\
    (forall c, c ∈ events self -> sum_time c <= t) /\
    (events self = [] -> t = 0) /\
    (events self <> [] -> exists c, c ∈ events self /\ t = sum_time c).
Proof.
  intros Hn Hpos. unfold get_total_ticks.
  destruct (total_ticks_loop_spec (events self) (nch self) 0%nat 0) as
    (t & Ht & H0 & Hall & Hex); [lia |].
  exists t. split; [done |]. split; [| split].
  - intros c Hc. apply list_elem_of_lookup in Hc as [j Hj].
    apply (Hall j c); [| done]. apply lookup_lt_Some in Hj. lia.
  - intros Hnil. destruct Hex as [-> | (j & c & Hj & Hc & _)]; [done |].
    rewrite Hnil in Hc. by rewrite lookup_nil in Hc.
  - intros Hne. destruct Hex as [-> | (j & c & Hj & Hc & ->)].
    + destruct (events self) as [|c rest] eqn:E; [done |].
      exists c. split; [apply list_elem_of_here |].
      assert (sum_time c <= 0) by (apply (Hall 0%nat c); [simpl in *; lia | done]).
      assert (0 <= sum_time c).
      { apply sum_time_nonneg. by inversion Hpos. }
      lia.
    + exists c. split; [| done]. apply list_elem_of_lookup. by exists j.
Qed.



(** ** The two ranges *)

Lemma tightened_refl r : tightened r r.
Proof. unfold tightened. lia. Qed.

Lemma tightened_trans r1 r2 r3 :
  tightened r1 r2 -> tightened r2 r3 -> tightened r1 r3.
Proof. unfold tightened. lia. Qed.

Lemma update_range_tightened r x : tightened r (update_range r x).
Proof.
  destruct r as [lo hi]. unfold tightened, update_range. simpl.
  destruct (lo >? x) eqn:E1; simpl; destruct (hi <? x) eqn:E2; simpl; lia.
Qed.

Lemma update_range_includes r x :
  fst (update_range r x) <= x <= snd (update_range r x).
Proof.
  destruct r as [lo hi]. unfold update_range. simpl.
  destruct (lo >? x) eqn:E1; simpl; destruct (hi <? x) eqn:E2; simpl; lia.
Qed.

Lemma update_range_ordered r x :
  fst (update_range r x) <= snd (update_range r x).
Proof. pose proof (update_range_includes r x). lia. Qed.

Lemma ranges_step_skip ir nr : ranges_step false ir nr ir nr.
Proof.
  unfold ranges_step. split; [apply tightened_refl |].
  split; [apply tightened_refl |]. split; [done | discriminate].
Qed.

Lemma ranges_step_seq b1 b2 ir nr ir1 nr1 ir2 nr2 :
  ranges_step b1 ir nr ir1 nr1 -> ranges_step b2 ir1 nr1 ir2 nr2 ->
  ranges_step (b1 || b2) ir nr ir2 nr2.
Proof.
  intros (Hi1 & Hn1 & Hf1 & Ht1) (Hi2 & Hn2 & Hf2 & Ht2).
  split; [by eapply tightened_trans |]. split; [by eapply tightened_trans |].
  split.
  - intros Hb. apply orb_false_iff in Hb as [-> ->].
    destruct (Hf1 eq_refl) as [-> ->]. by apply Hf2.
  - intros Hb. destruct b2; [by apply Ht2 |].
    rewrite orb_false_r in Hb. destruct (Hf2 eq_refl) as [-> ->]. by apply Ht1.
Qed.

Lemma handle_msg_ranges self idx msg st st' :
  handle_msg self idx msg st = Ok st' ->
  ranges_step (is_note_on msg)
    (r_intensity_range st) (r_note_range st)
    (r_intensity_range st') (r_note_range st').
Proof.
  unfold handle_msg. intros H. bind_inv H as st1 H1. injection H as <-. simpl.
  destruct msg; simpl; try (injection H1 as <-; apply ranges_step_skip).
  - (* note_on *)
    bind_inv H1 as e He. bind_inv H1 as k Hk. bind_inv H1 as r1 Hr1.
    injection H1 as <-. simpl.
    split; [apply update_range_tightened |].
    split; [apply update_range_tightened |].
    split; [discriminate |]. intros _.
    split; apply update_range_ordered.
  - (* note_off *)
    bind_inv H1 as e He. bind_inv H1 as k Hk.
    destruct (register_note st !! k) as [[[e0 i0]|]|]; try discriminate.
    bind_inv H1 as r1 Hr1. injection H1 as <-. apply ranges_step_skip.
  - (* program_change *)
    destruct (idx <? length (register_timbre st))%nat; [| discriminate].
    injection H1 as <-. apply ranges_step_skip.
Qed.

Lemma run_msgs_ranges self idx channel :
  forall st st', run_msgs self idx channel st = Ok st' ->
  ranges_step (existsb is_note_on channel)
    (r_intensity_range st) (r_note_range st)
    (r_intensity_range st') (r_note_range st').
Proof.
  induction channel as [|msg rest IH]; simpl; intros st st' H.
  - injection H as <-. apply ranges_step_skip.
  - bind_inv H as st1 H1. eapply ranges_step_seq.
    + by eapply handle_msg_ranges.
    + by apply IH.
Qed.

Lemma channel_pass_ranges self idx channel st st' :
  channel_pass self idx channel st = Ok st' ->
  ranges_step (existsb is_note_on channel)
    (r_intensity_range st) (r_note_range st)
    (r_intensity_range st') (r_note_range st').
Proof.
  unfold channel_pass. intros H. bind_inv H as st1 H1.
  bind_inv H as p Hp. destruct p as [r2 reg2]. injection H as <-. simpl.
  by apply run_msgs_ranges in H1.
Qed.

Lemma channels_loop_ranges self events :
  forall idx st st', channels_loop self idx events st = Ok st' ->
  ranges_step (existsb (existsb is_note_on) events)
    (r_intensity_range st) (r_note_range st)
    (r_intensity_range st') (r_note_range st').
Proof.
  induction events as [|channel rest IH]; simpl; intros idx st st' H.
  - injection H as <-. apply ranges_step_skip.
  - bind_inv H as st1 H1. eapply ranges_step_seq.
    + by eapply channel_pass_ranges.
    + by eapply IH.
Qed.

(** C8: the ranges start at [[100, 0]] and [[127, 0]]; every message the
    rasterizer handles leaves each minimum no larger and each maximum no
    smaller, and a message other than a [note_on] leaves both ranges as they
    are; so the loops over channels without a [note_on] end with the ranges
    they found, and over channels with a [note_on] they end with min <= max
    in both.  For [get_roll] itself: its body runs these loops from the
    ranges of [self] and writes the result to [self]; a call served from
    the cache handles no message and leaves the ranges as they are. *)
Theorem ranges_only_tightened w self ev self' r :
  get_roll w self ev = Ok (self', r) ->
  intensity_range init_self = (100, 0) /\ note_range init_self = (127, 0) /\
  (forall idx msg st st', handle_msg self idx msg st = Ok st' ->
     tightened (r_intensity_range st) (r_intensity_range st') /\
     tightened (r_note_range st) (r_note_range st') /\
     (is_note_on msg = false ->
        r_intensity_range st' = r_intensity_range st /\
        r_note_range st' = r_note_range st)) /\
  (forall idx evs st st', channels_loop self idx evs st = Ok st' ->
     tightened (r_intensity_range st) (r_intensity_range st') /\
     tightened (r_note_range st) (r_note_range st') /\
     (existsb (existsb is_note_on) evs = false ->
        r_intensity_range st' = r_intensity_range st /\
        r_note_range st' = r_note_range st) /\
     (existsb (existsb is_note_on) evs = true ->
        fst (r_intensity_range st') <= snd (r_intensity_range st') /\
        fst (r_note_range st') <= snd (r_note_range st'))) /\
  tightened (intensity_range self) (intensity_range self') /\
  tightened (note_range self) (note_range self') /\
  (existsb (existsb is_note_on) ev = false ->
     intensity_range self' = intensity_range self /\
     note_range self' = note_range self) /\
  (roll_hit w = true ->
     intensity_range self' = intensity_range self /\
     note_range self' = note_range self) /\
  (roll_hit w = false -> existsb (existsb is_note_on) ev = true ->
     fst (intensity_range self') <= snd (intensity_range self') /\
     fst (note_range self') <= snd (note_range self')).
Proof.
  intros H. split; [done |]. split; [done |]. split.
  { intros idx msg st st' Hm.
    apply handle_msg_ranges in Hm as (Hi & Hn & Hf & _). auto. }
  split.
  { intros idx evs st st' Hloop.
    apply channels_loop_ranges in Hloop as (Hi & Hn & Hf & Ht). auto. }
  apply get_roll_inv in H as (w0 & st0 & st & H0 & Hloop & -> & ->).
  apply channels_loop_ranges in Hloop as (Hi & Hn & Hf & Ht).
  apply raster_init_inv in H0 as (t & _ & _ & _ & ->).
  cbn [r_intensity_range r_note_range] in *.
  destruct (roll_hit w).
  - split; [apply tightened_refl |]. split; [apply tightened_refl |].
    split; [done |]. split; [done |]. discriminate.
  - cbn [set_ranges intensity_range note_range].
    split; [done |]. split; [done |]. split; [done |].
    split; [discriminate |]. intros _ Hsome. by apply Ht.
Qed.

Lemma ranges_only_tightened_witness :
  exists self' r,
    get_roll first_run
             (set_events [[note_on 0 60 64 0; note_off 0 60 0 30]] 1 init_self)
             [[note_on 0 60 64 0; note_off 0 60 0 30]] = Ok (self', r) /\
    intensity_range self' = (50, 50) /\ note_range self' = (60, 60) /\
    fst (intensity_range self') <= snd (intensity_range self').
Proof.
  eexists _, _. split; [vm_compute; reflexivity |].
  split; [reflexivity |]. split; [reflexivity |].
  edestruct (ranges_only_tightened first_run
       (set_events [[note_on 0 60 64 0; note_off 0 60 0 30]] 1 init_self)
       [[note_on 0 60 64 0; note_off 0 60 0 30]])
    as (_ & _ & _ & _ & _ & _ & _ & _ & Hord).
  - vm_compute; reflexivity.
  - apply Hord; reflexivity.
Defined.

(** ** Volume and intensities *)

Lemma main_volume_bound v : 0 <= v <= 127 -> 0 <= 100 * v / 127 <= 100.
Proof.
  intros H. split.
  - apply Z.div_pos; lia.
  - apply Z.div_le_upper_bound; lia.
Qed.

Lemma expression_factor v : 0 <= v <= 127 -> v / 127 = 0 \/ v / 127 = 1.
Proof.
  intros H. destruct (decide (v = 127)) as [->|Hne].
  - right. reflexivity.
  - left. apply Z.div_small. lia.
Qed.

Lemma intensity_of_bound vol vel :
  0 <= vol <= 100 -> 0 <= vel <= 127 -> 0 <= intensity_of vol vel <= 100.
Proof.
  intros Hvol Hvel. unfold intensity_of. split.
  - apply Z.div_pos; nia.
  - apply Z.div_le_upper_bound; nia.
Qed.

Lemma fill_slice_bounded row lo hi v :
  0 <= v <= 100 -> Forall (fun v => 0 <= v <= 100) row ->
  Forall (fun v => 0 <= v <= 100) (fill_slice row lo hi v).
Proof.
  intros Hv Hrow. apply Forall_lookup. intros i x Hx.
  assert (is_Some (row !! i)) as [y Hy].
  { apply lookup_lt_is_Some. rewrite <- (length_fill_slice row lo hi v).
    by eapply lookup_lt_Some. }
  rewrite (lookup_fill_slice _ _ _ _ _ _ Hy) in Hx. injection Hx as <-.
  destruct (_ && _).
  - rewrite wrap_int8_id; lia.
  - exact (proj1 (Forall_lookup _ _) Hrow _ _ Hy).
Qed.

Lemma roll_assign_bounded roll idx note lo hi v roll' :
  0 <= v <= 100 -> cells_bounded roll ->
  roll_assign roll idx note lo hi v = Ok roll' -> cells_bounded roll'.
Proof.
  intros Hv Hc. unfold roll_assign.
  destruct (roll !! idx) as [plane|] eqn:Hp; [| discriminate].
  intros H. bind_inv H as k Hk.
  destruct (plane !! k) as [row|] eqn:Hr; [| discriminate].
  injection H as <-.
  pose proof (proj1 (Forall_lookup _ _) Hc _ _ Hp) as Hplane.
  apply Forall_insert; [done |]. apply Forall_insert; [done |].
  apply fill_slice_bounded; [done |].
  exact (proj1 (Forall_lookup _ _) Hplane _ _ Hr).
Qed.

Lemma handle_msg_bounded self idx msg st st' :
  valid_msg msg -> bounded st ->
  handle_msg self idx msg st = Ok st' -> bounded st'.
Proof.
  intros Hv (Hvol & Hreg & Hcells). unfold handle_msg. intros H.
  bind_inv H as st1 H1. injection H as <-. unfold bounded. simpl.
  destruct msg; simpl in Hv; try (injection H1 as <-; done).
  - (* note_on *)
    bind_inv H1 as e He. bind_inv H1 as k Hk. bind_inv H1 as r1 Hr1.
    injection H1 as <-. simpl. split; [done |]. split.
    + apply Forall_insert; [done |]. intros e' i' [= _ <-].
      by apply intensity_of_bound.
    + destruct (register_note st !! k) as [[[e0 i0]|]|] eqn:Hslot;
        try (by injection Hr1 as <-).
      eapply roll_assign_bounded; [| exact Hcells | exact Hr1].
      exact (proj1 (Forall_lookup _ _) Hreg _ _ Hslot _ _ eq_refl).
  - (* note_off *)
    bind_inv H1 as e He. bind_inv H1 as k Hk.
    destruct (register_note st !! k) as [[[e0 i0]|]|] eqn:Hslot; try discriminate.
    bind_inv H1 as r1 Hr1. injection H1 as <-. simpl.
    split; [done |]. split.
    + apply Forall_insert; [done |]. intros e' i' [=].
    + eapply roll_assign_bounded; [| exact Hcells | exact Hr1].
      exact (proj1 (Forall_lookup _ _) Hreg _ _ Hslot _ _ eq_refl).
  - (* control_change *)
    injection H1 as <-. simpl. split; [| done].
    pose proof (main_volume_bound value Hv) as H7.
    destruct (expression_factor value Hv) as [-> | ->];
      destruct (control =? 7); destruct (control =? 11); lia.
  - (* program_change *)
    destruct (idx <? length (register_timbre st))%nat; [| discriminate].
    by injection H1 as <-.
Qed.

Lemma run_msgs_bounded self idx channel :
  forall st st', Forall valid_msg channel -> bounded st ->
  run_msgs self idx channel st = Ok st' -> bounded st'.
Proof.
  induction channel as [|msg rest IH]; simpl; intros st st' Hv Hb H.
  - by injection H as <-.
  - inversion Hv as [|? ? Hmsg Hrest]; subst. bind_inv H as st1 H1.
    eapply IH; [exact Hrest | | exact H]. by eapply handle_msg_bounded.
Qed.

Lemma close_loop_bounded idx keys :
  forall r reg r' reg', Forall slot_bounded reg -> cells_bounded r ->
  close_loop idx keys (r, reg) = Ok (r', reg') ->
  Forall slot_bounded reg' /\ cells_bounded r'.
Proof.
  induction keys as [|key rest IH]; simpl; intros r reg r' reg' Hreg Hc H.
  - by injection H as <- <-.
  - bind_inv H as r1 Hr1.
    destruct (idx <? length reg)%nat; [| discriminate].
    eapply IH; [| | exact H].
    + apply Forall_insert; [done |]. intros e i [=].
    + destruct (reg !! key) as [[[e0 i0]|]|] eqn:Hslot;
        try (by injection Hr1 as <-).
      eapply roll_assign_bounded; [| exact Hc | exact Hr1].
      exact (proj1 (Forall_lookup _ _) Hreg _ _ Hslot _ _ eq_refl).
Qed.

Lemma pass_start_bounded st : bounded st -> bounded (pass_start st).
Proof. intros (_ & Hreg & Hc). unfold bounded. simpl. split; [lia | done]. Qed.

Lemma channel_pass_bounded self idx channel st st' :
  Forall valid_msg channel -> bounded st ->
  channel_pass self idx channel st = Ok st' -> bounded st'.
Proof.
  intros Hv Hb. unfold channel_pass. intros H. bind_inv H as st1 H1.
  bind_inv H as p Hp. destruct p as [r2 reg2]. injection H as <-.
  eapply run_msgs_bounded in H1 as (Hvol & Hreg & Hc);
    [| exact Hv | by apply pass_start_bounded].
  eapply close_loop_bounded in Hp as [Hreg' Hc']; [| exact Hreg | exact Hc].
  by unfold bounded.
Qed.

Lemma channels_loop_bounded self events :
  forall idx st st', Forall (Forall valid_msg) events -> bounded st ->
  channels_loop self idx events st = Ok st' -> bounded st'.
Proof.
  induction events as [|channel rest IH]; simpl; intros idx st st' Hv Hb H.
  - by injection H as <-.
  - inversion Hv as [|? ? Hch Hrest]; subst. bind_inv H as st1 H1.
    eapply IH; [exact Hrest | | exact H]. by eapply channel_pass_bounded.
Qed.

Lemma replicate_None_bounded n : Forall slot_bounded (replicate n None).
Proof. apply Forall_replicate. intros e i [=]. Qed.

Lemma np_zeros_bounded w n0 n1 n2 roll :
  np_zeros w n0 n1 n2 = Ok roll -> cells_bounded roll.
Proof.
  intros [_ ->]%np_zeros_inv.
  unfold cells_bounded. apply Forall_replicate, Forall_replicate, Forall_replicate.
  lia.
Qed.

Lemma raster_init_bounded w self st0 :
  raster_init w self = Ok st0 -> bounded st0.
Proof.
  unfold raster_init. intros H. bind_inv H as t Ht. bind_inv H as b Hb.
  bind_inv H as r0 Hr0. injection H as <-. unfold bounded.
  cbn [volume register_note roll].
  split; [lia |]. split.
  - exact (replicate_None_bounded 128).
  - by eapply np_zeros_bounded.
Qed.

(** The loops over a split input: the states the theorems below speak of
    (after a prefix of a channel, after a prefix of the channels) are the
    states the whole run goes through. *)
Lemma run_msgs_app self idx pre post st :
  run_msgs self idx (pre ++ post) st =
  bind (run_msgs self idx pre st) (run_msgs self idx post).
Proof.
  revert st. induction pre as [|msg pre IH]; simpl; intros st; [done |].
  destruct (handle_msg self idx msg st) as [st1|e]; simpl; [apply IH | done].
Qed.

Lemma channels_loop_app self done rest :
  forall idx st,
  channels_loop self idx (done ++ rest) st =
  bind (channels_loop self idx done st)
       (channels_loop self (idx + length done) rest).
Proof.
  induction done as [|c done IH]; simpl; intros idx st.
  - by rewrite Nat.add_0_r.
  - destruct (channel_pass self idx c st) as [st1|e]; simpl; [| done].
    rewrite IH. by rewrite Nat.add_succ_r.
Qed.

(** C10: with velocities and control values in 0..127, after any prefix
    [pre] of the messages of any channel of [get_roll]'s input, [volume] is
    in 0..100, every registered intensity (the values the next assignments
    to [roll] store) is in 0..100 and so unchanged by the reduction to
    [int8], and every cell of [roll] is in 0..100; so is every cell of the
    matrix [get_roll] returns. *)
Theorem volume_and_cells_in_0_100 w self ev done pre post rest st0 sta st :
  Forall (Forall valid_msg) ev ->
  ev = done ++ (pre ++ post) :: rest ->
  raster_init w self = Ok st0 ->
  channels_loop self 0 done st0 = Ok sta ->
  run_msgs self (length done) pre (pass_start sta) = Ok st ->
  0 <= volume st <= 100 /\
  Forall (fun slot => forall e i, slot = Some (e, i) ->
            0 <= i <= 100 /\ wrap_int8 i = i) (register_note st) /\
  cells_bounded (roll st) /\
  (forall w' self' r, get_roll w' self ev = Ok (self', r) ->
     Forall (Forall (Forall (fun v => 0 <= v <= 100 /\ wrap_int8 v = v))) r).
Proof.
  intros Hv -> H0 Hdone Hpre.
  apply Forall_app in Hv as [Hvdone Hv]. inversion Hv as [|? ? Hvc Hvrest]; subst.
  apply Forall_app in Hvc as [Hvpre Hvpost].
  pose proof (raster_init_bounded _ _ _ H0) as Hb0.
  pose proof (channels_loop_bounded _ _ _ _ _ Hvdone Hb0 Hdone) as Hba.
  pose proof (run_msgs_bounded _ _ _ _ _ Hvpre (pass_start_bounded _ Hba) Hpre)
    as (Hvol & Hreg & Hcells).
  split; [done |]. split; [| split; [done |]].
  - eapply Forall_impl; [exact Hreg |]. intros slot Hs e i ->.
    pose proof (Hs e i eq_refl). split; [done |]. apply wrap_int8_id. lia.
  - intros w' self' r Hroll.
    apply get_roll_inv in Hroll as (w0 & st0' & stf & H0' & Hloop & -> & _).
    assert (bounded stf) as (_ & _ & Hc).
    { eapply channels_loop_bounded;
        [| exact (raster_init_bounded _ _ _ H0') | exact Hloop].
      apply Forall_app. split; [done |]. constructor; [| done].
      apply Forall_app. by split. }
    eapply Forall_impl; [exact Hc |]. intros plane Hplane.
    eapply Forall_impl; [exact Hplane |]. intros row Hrow.
    eapply Forall_impl; [exact Hrow |]. intros v Hvb.
    simpl in Hvb. split; [done |]. apply wrap_int8_id. lia.
Qed.

Lemma volume_and_cells_in_0_100_witness :
  exists st0 st,
    raster_init first_run
      (set_events [[control_change 0 7 64 0; note_on 0 60 100 0;
                    note_off 0 60 0 20]] 1 init_self) = Ok st0 /\
    run_msgs (set_events [[control_change 0 7 64 0; note_on 0 60 100 0;
                           note_off 0 60 0 20]] 1 init_self) 0
             [control_change 0 7 64 0; note_on 0 60 100 0] (pass_start st0)
      = Ok st /\
    volume st = 50 /\ register_note st !! 60%nat = Some (Some (0, 39)) /\
    0 <= volume st <= 100.
Proof.
  eexists _, _. split; [vm_compute; reflexivity |].
  split; [vm_compute; reflexivity |].
  split; [reflexivity |]. split; [reflexivity |].
  refine (proj1 (volume_and_cells_in_0_100 first_run
    (set_events [[control_change 0 7 64 0; note_on 0 60 100 0;
                  note_off 0 60 0 20]] 1 init_self)
    [[control_change 0 7 64 0; note_on 0 60 100 0; note_off 0 60 0 20]]
    [] [control_change 0 7 64 0; note_on 0 60 100 0] [note_off 0 60 0 20] []
    _ _ _ _ _ _ _ _)).
  - repeat constructor; simpl; lia.
  - reflexivity.
  - vm_compute; reflexivity.
  - reflexivity.
  - vm_compute; reflexivity.
Defined.

(** ** The note_on and note_off branches *)

(** The note_on branch (lines 136-160) followed by line 175, once the
    two operations that can raise before the register is read are known to
    succeed. *)
Lemma handle_note_on self idx c n vel t st k :
  sr self <> 0 -> py_index (length (register_note st)) n = Ok k ->
  handle_msg self idx (note_on c n vel t) st =
    (do roll1 <-
       match register_note st !! k with
       | Some (Some (last_end_time, last_intensity)) =>
           roll_assign (roll st) idx n last_end_time
                       (Some ((time_counter st + t) / sr self)) last_intensity
       | _ => Ok (roll st)
       end;
     Ok (mkRaster roll1
           (<[k := Some ((time_counter st + t) / sr self,
                         intensity_of (volume st) vel)]> (register_note st))
           (register_timbre st) (time_counter st + t) (volume st)
           (update_range (r_intensity_range st) (intensity_of (volume st) vel))
           (update_range (r_note_range st) n))).
Proof.
  intros Hsr Hk. unfold handle_msg. rewrite (floordiv_ok _ _ Hsr). simpl.
  rewrite Hk. simpl.
  destruct (register_note st !! k) as [[[e0 i0]|]|]; simpl; try done.
  by destruct (roll_assign _ _ _ _ _ _).
Qed.

Lemma handle_note_on_inv self idx c n vel t st st' :
  handle_msg self idx (note_on c n vel t) st = Ok st' ->
  sr self <> 0 /\ exists k, py_index (length (register_note st)) n = Ok k.
Proof.
  unfold handle_msg. intros H. bind_inv H as st1 H1.
  bind_inv H1 as e He. bind_inv H1 as k Hk.
  apply floordiv_inv in He as [Hsr _]. eauto.
Qed.

(** ** Expression (control number 11) *)

Lemma handle_msg_volume_zero self idx msg st st' :
  is_main_volume msg = false -> volume st = 0 ->
  handle_msg self idx msg st = Ok st' -> volume st' = 0.
Proof.
  intros Hm Hv. unfold handle_msg. intros H.
  bind_inv H as st1 H1. injection H as <-. simpl.
  destruct msg; simpl in Hm; try (by injection H1 as <-).
  - bind_inv H1 as e He. bind_inv H1 as k Hk. bind_inv H1 as r1 Hr1.
    by injection H1 as <-.
  - bind_inv H1 as e He. bind_inv H1 as k Hk.
    destruct (register_note st !! k) as [[[e0 i0]|]|]; try discriminate.
    bind_inv H1 as r1 Hr1. by injection H1 as <-.
  - injection H1 as <-. simpl. rewrite Hm, Hv.
    destruct (control =? 11); lia.
  - destruct (idx <? length (register_timbre st))%nat; [| discriminate].
    by injection H1 as <-.
Qed.

Lemma run_msgs_volume_zero self idx channel :
  forall st st',
  forallb (fun m => negb (is_main_volume m)) channel = true -> volume st = 0 ->
  run_msgs self idx channel st = Ok st' -> volume st' = 0.
Proof.
  induction channel as [|msg rest IH]; simpl; intros st st' Hm Hv H.
  - by injection H as <-.
  - apply andb_true_iff in Hm as [Hmsg Hrest]. apply negb_true_iff in Hmsg.
    bind_inv H as st1 H1. eapply IH; [exact Hrest | | exact H].
    by eapply handle_msg_volume_zero.
Qed.

(** C5: a [control_change] with control number 11 and value [v] sets
    [volume] to [volume * (v // 127)]; for [0 <= v < 127] that factor is 0,
    [volume] is 0 after any further messages that hold no [control_change]
    with control number 7, and a [note_on] that comes next registers
    intensity 0, whatever its velocity. *)
Theorem expression_truncates self idx ch v t mid st st1 :
  0 <= v < 127 ->
  forallb (fun m => negb (is_main_volume m)) mid = true ->
  run_msgs self idx (control_change ch 11 v t :: mid) st = Ok st1 ->
  (forall v',
     handle_msg self idx (control_change ch 11 v' t) st =
       Ok (mkRaster (roll st) (register_note st) (register_timbre st)
                    (time_counter st + t) (volume st * (v' / 127))
                    (r_intensity_range st) (r_note_range st))) /\
  v / 127 = 0 /\
  volume st1 = 0 /\
  (forall c n vel tm st2,
     handle_msg self idx (note_on c n vel tm) st1 = Ok st2 ->
     intensity_of (volume st1) vel = 0 /\
     exists k, py_index (length (register_note st1)) n = Ok k /\
       register_note st2 !! k =
         Some (Some ((time_counter st1 + tm) / sr self, 0))).
Proof.
  intros Hv Hmid Hrun.
  assert (v / 127 = 0) as Hfac by (apply Z.div_small; lia).
  assert (volume st1 = 0) as Hvol.
  { simpl in Hrun.
    eapply run_msgs_volume_zero; [exact Hmid | | exact Hrun].
    simpl. rewrite Hfac. lia. }
  split; [done |]. split; [done |]. split; [done |].
  intros c n vel tm st2 Hon.
  assert (intensity_of (volume st1) vel = 0) as Hint.
  { unfold intensity_of. rewrite Hvol. reflexivity. }
  split; [done |].
  destruct (handle_note_on_inv _ _ _ _ _ _ _ _ Hon) as (Hsr & k & Hk).
  exists k. split; [done |].
  rewrite (handle_note_on _ _ _ _ _ _ _ _ Hsr Hk) in Hon.
  bind_inv Hon as r1 Hr1. injection Hon as <-. simpl.
  rewrite Hint. apply list_lookup_insert_eq. by eapply py_index_lt.
Qed.

Lemma expression_truncates_witness :
  exists st1 st2,
    run_msgs init_self 0
      [control_change 0 11 100 0; program_change 0 5 0]
      (mkRaster [[[0; 0]]] (replicate 128 None) [1] 0 100 (100, 0) (127, 0))
      = Ok st1 /\
    handle_msg init_self 0 (note_on 0 0 127 10) st1 = Ok st2 /\
    volume st1 = 0 /\ register_note st2 !! 0%nat = Some (Some (1, 0)).
Proof.
  eexists _, _. split; [vm_compute; reflexivity |].
  split; [vm_compute; reflexivity |].
  edestruct (expression_truncates init_self 0 0 100 0 [program_change 0 5 0]
    (mkRaster [[[0; 0]]] (replicate 128 None) [1] 0 100 (100, 0) (127, 0)))
    as (_ & _ & Hvol & _).
  - lia.
  - reflexivity.
  - vm_compute; reflexivity.
  - split; [exact Hvol | reflexivity].
Defined.

(** ** note_on with velocity 0 *)

(** C9: a [note_on] with velocity 0 goes through the note_on branch: the
    intensity range is updated with 0 and the note range with the pitch, a
    segment registered for the pitch is painted up to this message's end
    bin, and the slot becomes [(end_bin, 0)], never [-1]. *)
Theorem note_on_velocity_zero self idx c n t st k :
  sr self <> 0 ->
  py_index (length (register_note st)) n = Ok k ->
  handle_msg self idx (note_on c n 0 t) st =
    (do roll1 <-
       match register_note st !! k with
       | Some (Some (last_end_time, last_intensity)) =>
           roll_assign (roll st) idx n last_end_time
                       (Some ((time_counter st + t) / sr self)) last_intensity
       | _ => Ok (roll st)
       end;
     Ok (mkRaster roll1
           (<[k := Some ((time_counter st + t) / sr self, 0)]> (register_note st))
           (register_timbre st) (time_counter st + t) (volume st)
           (update_range (r_intensity_range st) 0)
           (update_range (r_note_range st) n))) /\
  (forall st', handle_msg self idx (note_on c n 0 t) st = Ok st' ->
     register_note st' !! k = Some (Some ((time_counter st + t) / sr self, 0)) /\
     register_note st' !! k <> Some None).
Proof.
  intros Hsr Hk.
  assert (intensity_of (volume st) 0 = 0) as Hint.
  { unfold intensity_of. by rewrite Z.mul_0_r. }
  pose proof (handle_note_on self idx c n 0 t st k Hsr Hk) as Heq.
  rewrite Hint in Heq. split; [exact Heq |].
  intros st' H. rewrite Heq in H. bind_inv H as r1 Hr1. injection H as <-.
  simpl. rewrite list_lookup_insert_eq by (by eapply py_index_lt).
  by split.
Qed.

Lemma note_on_velocity_zero_witness :
  handle_msg init_self 0 (note_on 0 1 0 25)
    (mkRaster [[[0; 0; 0]; [0; 0; 0]]] [None; Some (1, 80)] [1] 0 100
              (100, 0) (127, 0))
  = Ok (mkRaster [[[0; 0; 0]; [0; 80; 0]]] [None; Some (2, 0)] [1] 25 100
                 (0, 0) (1, 1)).
Proof.
  rewrite (proj1 (note_on_velocity_zero init_self 0 0 1 25
    (mkRaster [[[0; 0; 0]; [0; 0; 0]]] [None; Some (1, 80)] [1] 0 100
              (100, 0) (127, 0)) 1%nat ltac:(vm_compute; discriminate) eq_refl)).
  reflexivity.
Defined.

(** ** Re-triggered notes *)

Lemma roll_assign_row_at roll idx note lo hi v k row :
  row_at roll idx k = Some row ->
  (forall plane, roll !! idx = Some plane -> py_index (length plane) note = Ok k) ->
  exists roll', roll_assign roll idx note lo hi v = Ok roll' /\
    row_at roll' idx k = Some (fill_slice row lo hi v).
Proof.
  unfold row_at, roll_assign. destruct (roll !! idx) as [plane|] eqn:Hp; [| done].
  intros Hr Hk. rewrite (Hk plane eq_refl). simpl. rewrite Hr.
  eexists. split; [done |].
  rewrite list_lookup_insert_eq by (by eapply lookup_lt_Some).
  apply list_lookup_insert_eq. by eapply lookup_lt_Some.
Qed.

Lemma lookup_fill_slice_nonneg row lo hi v i x :
  0 <= lo -> 0 <= hi -> row !! i = Some x ->
  fill_slice row lo (Some hi) v !! i =
    Some (if (lo <=? Z.of_nat i) && (Z.of_nat i <? hi) then wrap_int8 v else x).
Proof.
  intros Hlo Hhi Hx. rewrite (lookup_fill_slice _ _ _ _ _ _ Hx).
  apply lookup_lt_Some in Hx.
  rewrite !slice_bound_nonneg by done. f_equal.
  destruct (lo <=? Z.of_nat i) eqn:E1; destruct (Z.of_nat i <? hi) eqn:E2;
    simpl.
  - assert ((Z.to_nat (lo `min` Z.of_nat (length row)) <=? i)%nat = true) as ->
      by (apply Nat.leb_le; lia).
    assert ((i <? Z.to_nat (hi `min` Z.of_nat (length row)))%nat = true) as ->
      by (apply Nat.ltb_lt; lia).
    done.
  - assert ((i <? Z.to_nat (hi `min` Z.of_nat (length row)))%nat = false) as ->
      by (apply Nat.ltb_ge; lia).
    by rewrite andb_false_r.
  - assert ((Z.to_nat (lo `min` Z.of_nat (length row)) <=? i)%nat = false) as ->
      by (apply Nat.leb_gt; lia).
    done.
  - assert ((Z.to_nat (lo `min` Z.of_nat (length row)) <=? i)%nat = false) as ->
      by (apply Nat.leb_gt; lia).
    done.
Qed.

(** The note_off branch (lines 162-173) followed by line 175 on a
    registered pitch. *)
Lemma handle_note_off self idx c n vel t st k e0 i0 :
  sr self <> 0 -> py_index (length (register_note st)) n = Ok k ->
  register_note st !! k = Some (Some (e0, i0)) ->
  handle_msg self idx (note_off c n vel t) st =
    (do roll1 <- roll_assign (roll st) idx n e0
                   (Some ((time_counter st + t) / sr self)) i0;
     Ok (mkRaster roll1 (<[k := None]> (register_note st))
           (register_timbre st) (time_counter st + t) (volume st)
           (r_intensity_range st) (r_note_range st))).
Proof.
  intros Hsr Hk Hslot. unfold handle_msg. rewrite (floordiv_ok _ _ Hsr). simpl.
  rewrite Hk. simpl. rewrite Hslot.
  by destruct (roll_assign _ _ _ _ _ _).
Qed.

Lemma div_sr_nonneg a b : 0 < b -> 0 <= a -> 0 <= a / b.
Proof. intros. apply Z.div_pos; lia. Qed.

Lemma div_sr_mono a b c : 0 < c -> a <= b -> a / c <= b / c.
Proof. intros. apply Z.div_le_mono; lia. Qed.

Lemma roll_assign_plane_rows n roll idx note lo hi v roll' :
  roll_assign roll idx note lo hi v = Ok roll' ->
  plane_rows n roll idx -> plane_rows n roll' idx.
Proof.
  unfold roll_assign, plane_rows.
  destruct (roll !! idx) as [plane|] eqn:Hp; [| discriminate].
  intros H Hn. bind_inv H as k Hk.
  destruct (plane !! k) as [row|]; [| discriminate]. injection H as <-.
  intros plane'. rewrite list_lookup_insert_eq by (by eapply lookup_lt_Some).
  intros [= <-]. rewrite length_insert. by apply Hn.
Qed.

Lemma note_on_row self idx c p vel t st row :
  sr self <> 0 -> 0 <= p < 128 ->
  length (register_note st) = 128%nat ->
  plane_rows 128 (roll st) idx ->
  row_at (roll st) idx (Z.to_nat p) = Some row ->
  exists st',
    handle_msg self idx (note_on c p vel t) st = Ok st' /\
    register_note st' =
      <[Z.to_nat p := Some ((time_counter st + t) / sr self,
                            intensity_of (volume st) vel)]> (register_note st) /\
    time_counter st' = time_counter st + t /\
    volume st' = volume st /\
    plane_rows 128 (roll st') idx /\
    row_at (roll st') idx (Z.to_nat p) =
      Some match register_note st !! Z.to_nat p with
           | Some (Some (last_end_time, last_intensity)) =>
               fill_slice row last_end_time
                          (Some ((time_counter st + t) / sr self)) last_intensity
           | _ => row
           end.
Proof.
  intros Hsr Hp Hlen Hplane Hrow.
  assert (py_index (length (register_note st)) p = Ok (Z.to_nat p)) as Hk.
  { apply py_index_nonneg. lia. }
  rewrite (handle_note_on _ _ _ _ _ _ _ _ Hsr Hk).
  destruct (register_note st !! Z.to_nat p) as [[[e0 i0]|]|] eqn:Hslot.
  - destruct (roll_assign_row_at (roll st) idx p e0
                (Some ((time_counter st + t) / sr self)) i0 _ _ Hrow)
      as (roll1 & Hassign & Hrow1).
    { intros plane Hpl. rewrite (Hplane _ Hpl). apply py_index_nonneg. lia. }
    rewrite Hassign. simpl. eexists. split; [done |]. simpl.
    repeat split; try done. by eapply roll_assign_plane_rows.
  - simpl. eexists. split; [done |]. simpl. by repeat split.
  - simpl. eexists. split; [done |]. simpl. by repeat split.
Qed.

Lemma note_off_row self idx c p vel t st row e0 i0 :
  sr self <> 0 -> 0 <= p < 128 ->
  length (register_note st) = 128%nat ->
  plane_rows 128 (roll st) idx ->
  row_at (roll st) idx (Z.to_nat p) = Some row ->
  register_note st !! Z.to_nat p = Some (Some (e0, i0)) ->
  exists st',
    handle_msg self idx (note_off c p vel t) st = Ok st' /\
    register_note st' = <[Z.to_nat p := None]> (register_note st) /\
    row_at (roll st') idx (Z.to_nat p) =
      Some (fill_slice row e0 (Some ((time_counter st + t) / sr self)) i0).
Proof.
  intros Hsr Hp Hlen Hplane Hrow Hslot.
  assert (py_index (length (register_note st)) p = Ok (Z.to_nat p)) as Hk.
  { apply py_index_nonneg. lia. }
  rewrite (handle_note_off _ _ _ _ _ _ _ _ _ _ Hsr Hk Hslot).
  destruct (roll_assign_row_at (roll st) idx p e0
              (Some ((time_counter st + t) / sr self)) i0 _ _ Hrow)
    as (roll1 & Hassign & Hrow1).
  { intros plane Hpl. rewrite (Hplane _ Hpl). apply py_index_nonneg. lia. }
  rewrite Hassign. simpl. eexists. split; [done |]. simpl. by split.
Qed.

(** C7: a [note_on] for a pitch whose slot holds [(prev_end, prev_intensity)]
    first assigns [prev_intensity] to [roll[idx, p, prev_end:end_bin]] and
    then registers [(end_bin, intensity)], with
    [end_bin = (time_counter + time) // sr]; so after two consecutive
    [note_on] for a pitch and the [note_off] that closes it, the bins from
    the first end bin up to the second hold the first intensity and the bins
    from the second end bin up to the third hold the second intensity. *)
Theorem retrigger_adjacent_segments
    self idx st c1 c2 c3 p v1 v2 v3 t1 t2 t3 row :
  0 < sr self -> 0 <= time_counter st -> 0 <= t1 -> 0 <= t2 -> 0 <= t3 ->
  0 <= p < 128 ->
  length (register_note st) = 128%nat ->
  plane_rows 128 (roll st) idx ->
  row_at (roll st) idx (Z.to_nat p) = Some row ->
  let k := Z.to_nat p in
  let e1 := (time_counter st + t1) / sr self in
  let e2 := (time_counter st + t1 + t2) / sr self in
  let e3 := (time_counter st + t1 + t2 + t3) / sr self in
  let i1 := intensity_of (volume st) v1 in
  let i2 := intensity_of (volume st) v2 in
  (forall prev_end prev_intensity,
     register_note st !! k = Some (Some (prev_end, prev_intensity)) ->
     exists roll1,
       roll_assign (roll st) idx p prev_end (Some e1) prev_intensity = Ok roll1 /\
       row_at roll1 idx k = Some (fill_slice row prev_end (Some e1) prev_intensity) /\
       handle_msg self idx (note_on c1 p v1 t1) st =
         Ok (mkRaster roll1 (<[k := Some (e1, i1)]> (register_note st))
               (register_timbre st) (time_counter st + t1) (volume st)
               (update_range (r_intensity_range st) i1)
               (update_range (r_note_range st) p))) /\
  exists st1 st2 st3 row3,
    handle_msg self idx (note_on c1 p v1 t1) st = Ok st1 /\
    register_note st1 !! k = Some (Some (e1, i1)) /\
    handle_msg self idx (note_on c2 p v2 t2) st1 = Ok st2 /\
    register_note st2 !! k = Some (Some (e2, i2)) /\
    handle_msg self idx (note_off c3 p v3 t3) st2 = Ok st3 /\
    register_note st3 !! k = Some None /\
    row_at (roll st3) idx k = Some row3 /\
    e1 <= e2 <= e3 /\
    forall i x, row !! i = Some x ->
      (e1 <= Z.of_nat i < e2 -> row3 !! i = Some (wrap_int8 i1)) /\
      (e2 <= Z.of_nat i < e3 -> row3 !! i = Some (wrap_int8 i2)).
Proof.
  intros Hsr Htc Ht1 Ht2 Ht3 Hp Hlen Hplane Hrow k e1 e2 e3 i1 i2.
  assert (sr self <> 0) as Hsr0 by lia.
  assert (k < 128)%nat as Hk128 by (subst k; lia).
  split.
  - intros prev_end prev_intensity Hslot. subst e1 i1.
    assert (py_index (length (register_note st)) p = Ok k) as Hk.
    { apply py_index_nonneg. lia. }
    destruct (roll_assign_row_at (roll st) idx p prev_end
                (Some ((time_counter st + t1) / sr self))
                prev_intensity _ _ Hrow) as (roll1 & Hassign & Hrow1).
    { intros plane Hpl. rewrite (Hplane _ Hpl). apply py_index_nonneg. lia. }
    exists roll1. split; [done |]. split; [done |].
    rewrite (handle_note_on _ _ _ _ _ _ _ _ Hsr0 Hk), Hslot, Hassign. done.
  - destruct (note_on_row self idx c1 p v1 t1 st row Hsr0 Hp Hlen Hplane Hrow)
      as (st1 & H1 & Hreg1 & Htc1 & Hvol1 & Hplane1 & Hrow1).
    set (row1 := match register_note st !! Z.to_nat p with
                 | Some (Some (a, b)) => fill_slice row a (Some e1) b
                 | _ => row
                 end) in *.
    assert (length row1 = length row) as Hlen1.
    { subst row1. destruct (register_note st !! Z.to_nat p) as [[[a b]|]|];
        [apply length_fill_slice | done | done]. }
    assert (register_note st1 !! k = Some (Some (e1, i1))) as Hslot1.
    { rewrite Hreg1. apply list_lookup_insert_eq. lia. }
    assert (length (register_note st1) = 128%nat) as Hlenr1.
    { rewrite Hreg1, length_insert. done. }
    destruct (note_on_row self idx c2 p v2 t2 st1 row1 Hsr0 Hp Hlenr1 Hplane1 Hrow1)
      as (st2 & H2 & Hreg2 & Htc2 & Hvol2 & Hplane2 & Hrow2).
    fold k in Hrow2, Hreg2. rewrite Hslot1 in Hrow2.
    rewrite Htc1, Hvol1 in Hreg2. rewrite Htc1 in Hrow2.
    fold e2 i2 in Hreg2. fold e2 in Hrow2.
    assert (register_note st2 !! k = Some (Some (e2, i2))) as Hslot2.
    { rewrite Hreg2. apply list_lookup_insert_eq. lia. }
    assert (length (register_note st2) = 128%nat) as Hlenr2.
    { rewrite Hreg2, length_insert. done. }
    destruct (note_off_row self idx c3 p v3 t3 st2 _ e2 i2 Hsr0 Hp Hlenr2
                Hplane2 Hrow2 Hslot2) as (st3 & H3 & Hreg3 & Hrow3).
    rewrite Htc2, Htc1 in Hrow3. fold e3 k in Hrow3. fold k in Hreg3.
    assert (0 <= e1) as He1 by (apply div_sr_nonneg; lia).
    assert (e1 <= e2) as He12 by (apply div_sr_mono; lia).
    assert (e2 <= e3) as He23 by (apply div_sr_mono; lia).
    exists st1, st2, st3, (fill_slice (fill_slice row1 e1 (Some e2) i1) e2 (Some e3) i2).
    split; [done |]. split; [done |]. split; [done |]. split; [done |].
    split; [done |]. split.
    { rewrite Hreg3. apply list_lookup_insert_eq. lia. }
    split; [done |]. split; [done |].
    intros i x Hx.
    assert (is_Some (row1 !! i)) as [x1 Hx1].
    { apply lookup_lt_is_Some. rewrite Hlen1. by eapply lookup_lt_Some. }
    pose proof (lookup_fill_slice_nonneg row1 e1 e2 i1 i x1
                  ltac:(lia) ltac:(lia) Hx1) as Hx2.
    pose proof (lookup_fill_slice_nonneg _ e2 e3 i2 i _
                  ltac:(lia) ltac:(lia) Hx2) as Hx3.
    rewrite Hx3. split; intros Hi.
    + assert ((e2 <=? Z.of_nat i) = false) as -> by (apply Z.leb_gt; lia).
      assert ((e1 <=? Z.of_nat i) = true) as -> by (apply Z.leb_le; lia).
      assert ((Z.of_nat i <? e2) = true) as -> by (apply Z.ltb_lt; lia).
      done.
    + assert ((e2 <=? Z.of_nat i) = true) as -> by (apply Z.leb_le; lia).
      assert ((Z.of_nat i <? e3) = true) as -> by (apply Z.ltb_lt; lia).
      done.
Qed.

Lemma retrigger_adjacent_segments_witness :
  exists st3 row3,
    run_msgs init_self 0
      [note_on 0 60 127 0; note_on 0 60 64 20; note_off 0 60 0 30]
      (mkRaster [replicate 128 (replicate 6 0)] (replicate 128 None) [1]
                0 100 (100, 0) (127, 0)) = Ok st3 /\
    row_at (roll st3) 0 60 = Some row3 /\
    row3 !! 1%nat = Some 100 /\ row3 !! 3%nat = Some 50.
Proof.
  pose proof (retrigger_adjacent_segments init_self 0
    (mkRaster [replicate 128 (replicate 6 0)] (replicate 128 None) [1]
              0 100 (100, 0) (127, 0))
    0 0 0 60 127 64 0 0 20 30 (replicate 6 0)) as H.
  cbv zeta in H.
  destruct H as (_ & st1 & st2 & st3 & row3 & H1 & _ & H2 & _ & H3 & _ &
                 Hrow & _ & Hcells).
  - reflexivity.
  - simpl; lia.
  - lia.
  - lia.
  - lia.
  - lia.
  - reflexivity.
  - intros plane [= <-]. reflexivity.
  - reflexivity.
  - exists st3, row3. split.
    + cbn [run_msgs]. rewrite H1. cbn [bind]. rewrite H2. cbn [bind].
      rewrite H3. reflexivity.
    + split; [exact Hrow |]. split.
      * apply (Hcells 1%nat 0); [reflexivity |].
        split; [vm_compute; discriminate | reflexivity].
      * apply (Hcells 3%nat 0); [reflexivity |].
        split; [vm_compute; discriminate | reflexivity].
Defined.

(** ** The register across channels *)

(** The closing loop writes [-1] to slot [idx] and to no other slot. *)
Lemma close_loop_register idx keys :
  forall r reg r' reg',
  close_loop idx keys (r, reg) = Ok (r', reg') ->
  reg' = match keys with [] => reg | _ :: _ => <[idx := None]> reg end.
Proof.
  induction keys as [|key rest IH]; simpl; intros r reg r' reg' H.
  - by injection H as <- <-.
  - bind_inv H as r1 Hr1. destruct (idx <? length reg)%nat; [| discriminate].
    apply IH in H. rewrite H. destruct rest; [done |].
    by rewrite list_insert_insert_eq.
Qed.

Lemma channel_pass_register self idx channel st st' :
  channel_pass self idx channel st = Ok st' ->
  exists st1, run_msgs self idx channel (pass_start st) = Ok st1 /\
    register_note st' = <[idx := None]> (register_note st1).
Proof.
  unfold channel_pass. intros H. bind_inv H as st1 H1.
  bind_inv H as p Hp. destruct p as [r2 reg2]. injection H as <-. simpl.
  exists st1. split; [done |].
  apply close_loop_register in Hp. rewrite Hp.
  destruct (register_note st1); [done |]. reflexivity.
Qed.

(** C1: the register is created once, before the loop over the channels,
    and the closing loop of a pass clears slot [idx] only.  On a file with
    [note_on] for pitch 60 on channel 0, never closed, and a note on pitch 62
    on channel 1: after the pass of channel 0 slot 60 still holds [(0, 100)],
    the pass of channel 1 starts with [time_counter = 0] and [volume = 100]
    and with that slot, and its closing loop paints pitch 60 into the plane
    of channel 1. *)
Theorem register_carried_into_next_pass :
  exists self1 ev st0 st1 m,
    get_events first_run init_self
      [[note_on 0 60 127 0; note_on 1 62 127 0; note_off 1 62 0 20]]
      = Ok (self1, (ev, 2%nat)) /\
    ev = [[note_on 0 60 127 0]; [note_on 1 62 127 0; note_off 1 62 0 20]] /\
    raster_init first_run (set_events ev 2 self1) = Ok st0 /\
    channel_pass (set_events ev 2 self1) 0 [note_on 0 60 127 0] st0 = Ok st1 /\
    register_note st1 !! 60%nat = Some (Some (0, 100)) /\
    time_counter (pass_start st1) = 0 /\ volume (pass_start st1) = 100 /\
    register_note (pass_start st1) !! 60%nat = Some (Some (0, 100)) /\
    MidiFile_init first_run
      [[note_on 0 60 127 0; note_on 1 62 127 0; note_off 1 62 0 20]] 480 = Ok m /\
    row_at (mf_roll m) 1 60 = Some [100; 100] /\
    row_at (mf_roll m) 1 62 = Some [100; 100].
Proof.
  eexists _, _, _, _, _.
  split; [vm_compute; reflexivity |]. split; [reflexivity |].
  split; [vm_compute; reflexivity |]. split; [vm_compute; reflexivity |].
  split; [reflexivity |]. split; [reflexivity |]. split; [reflexivity |].
  split; [reflexivity |]. split; [vm_compute; reflexivity |].
  split; reflexivity.
Qed.

(** ** note_off on a slot that holds [-1] *)

Lemma handle_note_off_inactive self idx c n vel t st k :
  sr self <> 0 -> py_index (length (register_note st)) n = Ok k ->
  register_note st !! k = Some None ->
  handle_msg self idx (note_off c n vel t) st = Raise TypeError.
Proof.
  intros Hsr Hk Hslot. unfold handle_msg. rewrite (floordiv_ok _ _ Hsr). simpl.
  rewrite Hk. simpl. by rewrite Hslot.
Qed.

(** C2: a [note_off] for a pitch whose slot holds [-1] raises [TypeError]
    (line 169 unpacks the slot): the message alone in a channel, and so the
    construction of the object for a file that holds only it. *)
Theorem note_off_without_note_on_raises :
  handle_msg init_self 0 (note_off 0 60 0 10)
    (mkRaster [replicate 128 [0]] (replicate 128 None) [1] 0 100 (100, 0) (127, 0))
    = Raise TypeError /\
  MidiFile_init first_run [[note_off 0 60 0 10]] 480 = Raise TypeError.
Proof. split; vm_compute; reflexivity. Qed.

(** ** A performance without ticks *)

Lemma truediv_zero_ticks scale : truediv 0 (inject_Z 0 * scale)%Q = Raise ZeroDivisionError.
Proof.
  unfold truediv.
  assert (Qeq_bool (inject_Z 0 * scale) 0 = true) as ->; [| done].
  apply Qeq_bool_iff. apply Qmult_0_l.
Qed.

(** Line 38 never succeeds on a performance of zero ticks. *)
Lemma init_ok_ticks_nonzero w tracks ticks_per_beat m :
  MidiFile_init w tracks ticks_per_beat = Ok m -> length_ticks m <> 0.
Proof.
  unfold MidiFile_init. intros H.
  bind_inv H as p1 H1. destruct p1 as [self1 [ev n]].
  bind_inv H as p2 H2. destruct p2 as [self3 r].
  bind_inv H as lt Hlt. bind_inv H as ls Hls. bind_inv H as tps Htps.
  injection H as <-. simpl. intros ->.
  unfold tick2second in Hls. destruct (get_tempo self3); try discriminate.
  destruct (ticks_per_beat =? 0); [discriminate |]. injection Hls as <-.
  by rewrite truediv_zero_ticks in Htps.
Qed.

(** C3: for a file without any channel message [get_roll] returns the
    matrix without planes, and the construction of the object then raises
    [ZeroDivisionError] at line 38, [length_ticks / length_seconds] being
    [0 / 0.0]; so it does for a file whose channel messages all have delta
    time 0. *)
Theorem empty_performance_raises :
  get_roll first_run (set_events [] 0 init_self) []
    = Ok (set_events [] 0 init_self, []) /\
  MidiFile_init first_run
    [[meta_message "set_tempo" [("tempo", PInt 500000)] 0;
      meta_message "end_of_track" [] 0]] 480
    = Raise ZeroDivisionError /\
  MidiFile_init first_run [[program_change 0 5 0]] 480
    = Raise ZeroDivisionError.
Proof. repeat split; vm_compute; reflexivity. Qed.

(** ** Messages without a channel *)

Lemma demux_msg_no_channel msg ev mt :
  msg_channel msg = None ->
  demux_msg msg (ev, mt) = Ok (ev, <[msg_type msg := msg_dict msg]> mt).
Proof.
  intros H. unfold demux_msg. rewrite H. by destruct msg.
Qed.

(** C4: the test [type(msg) != type(mido.UnknownMetaMessage)] compares the
    class of the message with the metaclass and holds for every message, so
    an [UnknownMetaMessage] is recorded into [meta] under its type name
    ["unknown_meta"]. *)
Theorem unknown_meta_is_recorded :
  exists self1 ev n,
    get_events first_run init_self [[unknown_meta_message 96 [1; 2] 0]]
      = Ok (self1, (ev, n)) /\
    meta self1 !! "unknown_meta"
      = Some (msg_dict (unknown_meta_message 96 [1; 2] 0)).
Proof.
  eexists _, _, _. split; [vm_compute; reflexivity |]. vm_compute; reflexivity.
Qed.

(** * Further properties of the code *)

(** ** get_events: the timelines *)

Lemma demux_msg_lookup n msg evs mt :
  length evs = n -> channel_in_range n msg ->
  exists evs' mt',
    demux_msg msg (evs, mt) = Ok (evs', mt') /\ length evs' = n /\
    forall i, evs' !! i =
      (fun l => l ++ filter (fun m => msg_channel m = Some (Z.of_nat i)) [msg])
        <$> evs !! i.
Proof.
  intros Hlen Hin. unfold demux_msg, channel_in_range in *.
  destruct (msg_channel msg) as [c|] eqn:Hc.
  - rewrite py_index_nonneg by lia. simpl.
    destruct (evs !! Z.to_nat c) as [l|] eqn:Hl.
    2:{ apply lookup_ge_None in Hl. lia. }
    eexists _, _. split; [done |]. split; [by rewrite length_insert |].
    intros i. destruct (decide (i = Z.to_nat c)) as [->|Hne].
    + rewrite list_lookup_insert_eq by lia. rewrite Hl. simpl.
      rewrite filter_cons_True by (rewrite Hc; f_equal; lia). done.
    + rewrite list_lookup_insert_ne by done.
      rewrite filter_cons_False by (rewrite Hc; intros [= ->]; lia).
      rewrite filter_nil. destruct (evs !! i); simpl; [| done].
      by rewrite app_nil_r.
  - assert (forall i, filter (fun m => msg_channel m = Some (Z.of_nat i)) [msg] = [])
      as Hnil.
    { intros i. rewrite filter_cons_False by (by rewrite Hc). apply filter_nil. }
    destruct (negb _); eexists _, _; (split; [done |]); (split; [done |]);
      intros i; rewrite Hnil; destruct (evs !! i); simpl; try done;
      by rewrite app_nil_r.
Qed.

Lemma demux_track_lookup n track :
  forall evs mt, length evs = n -> Forall (channel_in_range n) track ->
  exists evs' mt',
    demux_track track (evs, mt) = Ok (evs', mt') /\ length evs' = n /\
    forall i, evs' !! i =
      (fun l => l ++ filter (fun m => msg_channel m = Some (Z.of_nat i)) track)
        <$> evs !! i.
Proof.
  induction track as [|msg rest IH]; intros evs mt Hlen Hin.
  - exists evs, mt. split; [done |]. split; [done |]. intros i.
    rewrite filter_nil. destruct (evs !! i); simpl; [| done]. by rewrite app_nil_r.
  - inversion Hin as [|? ? Hmsg Hrest]; subst.
    destruct (demux_msg_lookup _ msg evs mt eq_refl Hmsg)
      as (evs1 & mt1 & H1 & Hlen1 & Hl1).
    destruct (IH evs1 mt1 Hlen1 Hrest) as (evs2 & mt2 & H2 & Hlen2 & Hl2).
    exists evs2, mt2. cbn [demux_track]. rewrite H1. cbn [bind].
    split; [done |]. split; [done |].
    intros i. rewrite Hl2, Hl1. destruct (evs !! i) as [l|]; simpl; [| done].
    rewrite <- app_assoc. f_equal. f_equal.
    change (msg :: rest) with ([msg] ++ rest). by rewrite filter_app.
Qed.

Lemma demux_tracks_lookup n tracks :
  forall evs mt, length evs = n -> Forall (Forall (channel_in_range n)) tracks ->
  exists evs' mt',
    demux_tracks tracks (evs, mt) = Ok (evs', mt') /\ length evs' = n /\
    forall i, evs' !! i =
      (fun l => l ++ filter (fun m => msg_channel m = Some (Z.of_nat i))
                       (concat tracks))
        <$> evs !! i.
Proof.
  induction tracks as [|track rest IH]; intros evs mt Hlen Hin.
  - exists evs, mt. split; [done |]. split; [done |]. intros i.
    cbn [concat]. rewrite filter_nil.
    destruct (evs !! i); simpl; [| done]. by rewrite app_nil_r.
  - inversion Hin as [|? ? Htrack Hrest]; subst.
    destruct (demux_track_lookup _ track evs mt eq_refl Htrack)
      as (evs1 & mt1 & H1 & Hlen1 & Hl1).
    destruct (IH evs1 mt1 Hlen1 Hrest) as (evs2 & mt2 & H2 & Hlen2 & Hl2).
    exists evs2, mt2. cbn [demux_tracks]. rewrite H1. cbn [bind].
    split; [done |]. split; [done |].
    intros i. rewrite Hl2, Hl1. destruct (evs !! i) as [l|]; simpl; [| done].
    rewrite <- app_assoc. f_equal. f_equal. by rewrite filter_app.
Qed.

(** X1: with every channel number below [max_nch], [get_events] returns,
    and the lists it returns are the non-empty ones among the [max_nch]
    timelines, in channel order, each timeline being the messages of its
    channel in the order the tracks are traversed (track after track; the
    tracks are not merged in time); the count it returns is their number. *)
Theorem get_events_timelines w self tracks :
  Forall (Forall (channel_in_range (max_nch self))) tracks ->
  exists self1,
    get_events w self tracks =
      Ok (self1,
          (filter (fun l => l <> []) (timeline tracks <$> seq 0 (max_nch self)),
           length (filter (fun l => l <> [])
                     (timeline tracks <$> seq 0 (max_nch self))))).
Proof.
  intros Hin. unfold get_events, st_cache, get_events_body.
  destruct (demux_tracks_lookup (max_nch self) tracks
              (replicate (max_nch self) []) (meta self)
              (length_replicate _ _) Hin) as (all & mt & Hd & Hlen & Hl).
  rewrite Hd. simpl.
  assert (all = timeline tracks <$> seq 0 (max_nch self)) as ->.
  { apply list_eq. intros i. rewrite Hl, list_lookup_fmap.
    destruct (decide (i < max_nch self)%nat) as [Hi|Hi].
    - rewrite lookup_replicate_2 by done. rewrite lookup_seq_lt by done. done.
    - rewrite (proj1 (lookup_replicate_None _ _ _)) by lia.
      rewrite lookup_seq_ge by lia. done. }
  rewrite filter_truthy_filter. by eexists.
Qed.

Lemma get_events_timelines_witness :
  exists self1,
    get_events first_run init_self
      [[note_on 1 60 90 0; note_on 0 62 90 5]; [note_off 1 60 0 7]]
    = Ok (self1, ([[note_on 0 62 90 5]; [note_on 1 60 90 0; note_off 1 60 0 7]],
                  2%nat)).
Proof.
  destruct (get_events_timelines first_run init_self
    [[note_on 1 60 90 0; note_on 0 62 90 5]; [note_off 1 60 0 7]])
    as [self1 H].
  - repeat constructor; unfold channel_in_range; simpl; lia.
  - exists self1. rewrite H. reflexivity.
Defined.

(** ** get_events and get_tempo: the dictionary of meta messages *)

Lemma demux_msg_meta key msg evs mt evs' mt' :
  demux_msg msg (evs, mt) = Ok (evs', mt') ->
  mt' !! key =
    match last (keyed key [msg]) with
    | Some m => Some (msg_dict m)
    | None => mt !! key
    end.
Proof.
  unfold demux_msg, keyed. destruct (msg_channel msg) as [c|] eqn:Hc.
  - intros H. bind_inv H as k Hk. destruct (evs !! k); [| discriminate].
    injection H as <- <-.
    rewrite filter_cons_False by (rewrite Hc; by intros [? _]). done.
  - assert (negb (pytype_eqb (type_of_msg msg)
                    (type_of_class cls_UnknownMetaMessage)) = true) as ->
      by (by destruct msg).
    intros [= <- <-]. destruct (decide (msg_type msg = key)) as [<-|Hne].
    + rewrite filter_cons_True by (by rewrite Hc). simpl.
      by rewrite lookup_insert_eq.
    + rewrite filter_cons_False by (by intros [_ ?]). simpl.
      by rewrite lookup_insert_ne.
Qed.

Lemma last_keyed_app key l1 l2 :
  last (keyed key (l1 ++ l2)) =
    match last (keyed key l2) with
    | Some m => Some m
    | None => last (keyed key l1)
    end.
Proof.
  unfold keyed. rewrite filter_app.
  destruct (filter _ l2) as [|m l] eqn:E using rev_ind.
  - by rewrite app_nil_r.
  - rewrite app_assoc, !last_snoc. done.
Qed.

Lemma demux_track_meta key track :
  forall evs mt evs' mt',
  demux_track track (evs, mt) = Ok (evs', mt') ->
  mt' !! key =
    match last (keyed key track) with
    | Some m => Some (msg_dict m)
    | None => mt !! key
    end.
Proof.
  induction track as [|msg rest IH]; intros evs mt evs' mt' H.
  - cbn [demux_track] in H. by injection H as <- <-.
  - cbn [demux_track] in H. bind_inv H as p Hp. destruct p as [evs1 mt1].
    rewrite (IH _ _ _ _ H).
    change (msg :: rest) with ([msg] ++ rest). rewrite last_keyed_app.
    destruct (last (keyed key rest)); [done |].
    by eapply demux_msg_meta.
Qed.

Lemma demux_tracks_meta key tracks :
  forall evs mt evs' mt',
  demux_tracks tracks (evs, mt) = Ok (evs', mt') ->
  mt' !! key =
    match last (keyed key (concat tracks)) with
    | Some m => Some (msg_dict m)
    | None => mt !! key
    end.
Proof.
  induction tracks as [|track rest IH]; intros evs mt evs' mt' H.
  - cbn [demux_tracks] in H. by injection H as <- <-.
  - cbn [demux_tracks] in H. bind_inv H as p Hp. destruct p as [evs1 mt1].
    rewrite (IH _ _ _ _ H). cbn [concat]. rewrite last_keyed_app.
    destruct (last (keyed key (concat rest))); [done |].
    by eapply demux_track_meta.
Qed.

(** X2: when the body of [get_events] runs (the call is not served from
    the cache), [meta] afterwards holds under each type name the dictionary
    of the last message without a channel that has that type, in the order
    the tracks are traversed, and what it held before under the names no
    such message has; so [get_tempo] then returns the [tempo] of the last
    [set_tempo] message of the file, 500000 when that message has no
    [tempo], and what it returned before when the file has no [set_tempo].
    When the call is served from the cache, [meta] is left as it is and
    [get_tempo] returns what it returned before: 500000 for the object
    [__init__] starts from, whatever the file holds. *)
Theorem get_tempo_last_set_tempo w self tracks self1 ev n :
  get_events w self tracks = Ok (self1, (ev, n)) ->
  (forall key,
     meta self1 !! key =
       if events_hit w then meta self !! key
       else match last (keyed key (concat tracks)) with
            | Some m => Some (msg_dict m)
            | None => meta self !! key
            end) /\
  get_tempo self1 =
    (if events_hit w then get_tempo self
     else match last (keyed "set_tempo" (concat tracks)) with
          | Some m => match msg_dict m !! "tempo" with
                      | Some v => v
                      | None => PInt 500000
                      end
          | None => get_tempo self
          end) /\
  get_tempo init_self = PInt 500000.
Proof.
  intros H. apply get_events_spec in H as (all & mt & Hd & _ & _ & ->).
  assert (forall key,
     mt !! key =
       match last (keyed key (concat tracks)) with
       | Some m => Some (msg_dict m)
       | None => meta self !! key
       end) as Hmeta.
  { intros key. by eapply demux_tracks_meta. }
  destruct (events_hit w).
  - split; [done |]. split; [done | reflexivity].
  - split; [exact Hmeta |]. split; [| reflexivity].
    unfold get_tempo. simpl. rewrite Hmeta.
    by destruct (last (keyed "set_tempo" (concat tracks))).
Qed.

Lemma get_tempo_last_set_tempo_witness :
  exists self1 ev n self2,
    get_events first_run init_self
      [[meta_message "set_tempo" [("tempo", PInt 600000)] 0;
        note_on 0 60 90 0];
       [meta_message "set_tempo" [("tempo", PInt 400000)] 10]]
      = Ok (self1, (ev, n)) /\
    get_tempo self1 = PInt 400000 /\
    get_events (mkWorld true false (2 ^ 63 - 1) (2 ^ 34)) init_self
      [[meta_message "set_tempo" [("tempo", PInt 600000)] 0;
        note_on 0 60 90 0];
       [meta_message "set_tempo" [("tempo", PInt 400000)] 10]]
      = Ok (self2, (ev, n)) /\
    get_tempo self2 = PInt 500000.
Proof.
  eexists _, _, _, _. split; [vm_compute; reflexivity |].
  split.
  - edestruct (get_tempo_last_set_tempo first_run init_self
      [[meta_message "set_tempo" [("tempo", PInt 600000)] 0;
        note_on 0 60 90 0];
       [meta_message "set_tempo" [("tempo", PInt 400000)] 10]])
      as (_ & Ht & _).
    + vm_compute; reflexivity.
    + rewrite Ht. reflexivity.
  - split; [vm_compute; reflexivity |].
    edestruct (get_tempo_last_set_tempo
      (mkWorld true false (2 ^ 63 - 1) (2 ^ 34)) init_self
      [[meta_message "set_tempo" [("tempo", PInt 600000)] 0;
        note_on 0 60 90 0];
       [meta_message "set_tempo" [("tempo", PInt 400000)] 10]])
      as (_ & Ht & _).
    + vm_compute; reflexivity.
    + rewrite Ht. reflexivity.
Defined.

(** ** The time counter *)

Lemma sum_time_from acc l :
  foldl (fun acc msg => acc + msg_time msg) acc l = acc + sum_time l.
Proof.
  unfold sum_time. revert acc. induction l as [|m l IH]; simpl; intros acc; [lia |].
  rewrite IH, (IH (0 + msg_time m)). lia.
Qed.

Lemma sum_time_cons m l : sum_time (m :: l) = msg_time m + sum_time l.
Proof. unfold sum_time at 1. simpl. rewrite sum_time_from. lia. Qed.

Lemma sum_time_app l1 l2 : sum_time (l1 ++ l2) = sum_time l1 + sum_time l2.
Proof.
  induction l1 as [|m l1 IH]; simpl; [done |].
  rewrite !sum_time_cons, IH. lia.
Qed.

Lemma handle_msg_time self idx msg st st' :
  handle_msg self idx msg st = Ok st' ->
  time_counter st' = time_counter st + msg_time msg.
Proof.
  unfold handle_msg. intros H. bind_inv H as st1 H1. injection H as <-. simpl.
  destruct msg; simpl; try (by injection H1 as <-).
  - bind_inv H1 as e He. bind_inv H1 as k Hk. bind_inv H1 as r1 Hr1.
    by injection H1 as <-.
  - bind_inv H1 as e He. bind_inv H1 as k Hk.
    destruct (register_note st !! k) as [[[e0 i0]|]|]; try discriminate.
    bind_inv H1 as r1 Hr1. by injection H1 as <-.
  - destruct (idx <? length (register_timbre st))%nat; [| discriminate].
    by injection H1 as <-.
Qed.

Lemma run_msgs_time self idx channel :
  forall st st', run_msgs self idx channel st = Ok st' ->
  time_counter st' = time_counter st + sum_time channel.
Proof.
  induction channel as [|msg rest IH]; intros st st' H.
  - cbn [run_msgs] in H. injection H as <-. unfold sum_time. simpl. lia.
  - cbn [run_msgs] in H. bind_inv H as st1 H1.
    rewrite (IH _ _ H), (handle_msg_time _ _ _ _ _ H1), sum_time_cons. lia.
Qed.

(** X3: while a channel is rasterized, [time_counter] is the sum of the
    delta times of the messages handled so far in that channel; so, with
    delta times >= 0, the end bin [(time_counter + msg.time) // sr] computed
    for any message of any channel lies between 0 and the number of bins of
    the matrix, [get_total_ticks() // sr]: no slice that is painted is
    cut at the edge of the matrix. *)
Theorem end_bin_within_matrix self idx c pre msg post st st1 total :
  0 < sr self ->
  nch self = length (events self) ->
  Forall (Forall (fun m => 0 <= msg_time m)) (events self) ->
  c ∈ events self -> c = pre ++ msg :: post ->
  get_total_ticks self = Ok total ->
  run_msgs self idx pre (pass_start st) = Ok st1 ->
  time_counter st1 = sum_time pre /\
  0 <= (time_counter st1 + msg_time msg) / sr self <= total / sr self.
Proof.
  intros Hsr Hn Hpos Hc -> Ht Hrun.
  apply run_msgs_time in Hrun. simpl in Hrun.
  split; [lia |].
  destruct (get_total_ticks_spec self Hn Hpos) as (t & Ht' & Hle & _).
  rewrite Ht in Ht'. injection Ht' as <-.
  specialize (Hle _ Hc). rewrite sum_time_app, sum_time_cons in Hle.
  pose proof (proj1 (Forall_forall _ _) Hpos _ Hc) as Hcpos.
  apply Forall_app in Hcpos as [Hpre Hpost].
  inversion Hpost as [|? ? Hm Hpost']; subst.
  pose proof (sum_time_nonneg _ Hpre). pose proof (sum_time_nonneg _ Hpost').
  split.
  - apply Z.div_pos; lia.
  - apply Z.div_le_mono; lia.
Qed.

Lemma end_bin_within_matrix_witness :
  exists st1 total,
    get_total_ticks (set_events [[note_on 0 60 90 15; note_off 0 60 0 30]] 1
                                init_self) = Ok total /\
    run_msgs (set_events [[note_on 0 60 90 15; note_off 0 60 0 30]] 1 init_self)
      0 [note_on 0 60 90 15]
      (pass_start (mkRaster [replicate 128 (replicate 4 0)] (replicate 128 None)
                            [1] 0 100 (100, 0) (127, 0))) = Ok st1 /\
    time_counter st1 = 15 /\ total = 45 /\
    0 <= (time_counter st1 + 30) / 10 <= total / 10.
Proof.
  eexists _, _. split; [vm_compute; reflexivity |].
  split; [vm_compute; reflexivity |].
  split; [reflexivity |]. split; [reflexivity |].
  refine (proj2 (end_bin_within_matrix
    (set_events [[note_on 0 60 90 15; note_off 0 60 0 30]] 1 init_self)
    0 [note_on 0 60 90 15; note_off 0 60 0 30]
    [note_on 0 60 90 15] (note_off 0 60 0 30) []
    (mkRaster [replicate 128 (replicate 4 0)] (replicate 128 None)
              [1] 0 100 (100, 0) (127, 0)) _ 45 _ _ _ _ _ _ _)).
  - reflexivity.
  - reflexivity.
  - repeat constructor; simpl; lia.
  - apply list_elem_of_here.
  - reflexivity.
  - vm_compute; reflexivity.
  - vm_compute; reflexivity.
Defined.

(** ** One plane per pass *)

Lemma roll_assign_other_plane roll idx note lo hi v roll' j :
  roll_assign roll idx note lo hi v = Ok roll' -> j <> idx ->
  roll' !! j = roll !! j.
Proof.
  unfold roll_assign. destruct (roll !! idx) as [plane|]; [| discriminate].
  intros H Hj. bind_inv H as k Hk. destruct (plane !! k); [| discriminate].
  injection H as <-. by apply list_lookup_insert_ne.
Qed.

Section OtherPlanes.
Variable self : Self.
Variables idx j : nat.
Hypothesis Hj : j <> idx.

Lemma handle_msg_other_plane msg st st' :
  handle_msg self idx msg st = Ok st' ->
  roll st' !! j = roll st !! j /\
  register_timbre st' !! j = register_timbre st !! j.
Proof using Hj.
  unfold handle_msg. intros H. bind_inv H as st1 H1. injection H as <-. simpl.
  destruct msg; try (by injection H1 as <-).
  - bind_inv H1 as e He. bind_inv H1 as k Hk. bind_inv H1 as r1 Hr1.
    injection H1 as <-. simpl. split; [| done].
    destruct (register_note st !! k) as [[[e0 i0]|]|];
      try (by injection Hr1 as <-).
    by eapply roll_assign_other_plane.
  - bind_inv H1 as e He. bind_inv H1 as k Hk.
    destruct (register_note st !! k) as [[[e0 i0]|]|]; try discriminate.
    bind_inv H1 as r1 Hr1. injection H1 as <-. simpl. split; [| done].
    by eapply roll_assign_other_plane.
  - destruct (idx <? length (register_timbre st))%nat; [| discriminate].
    injection H1 as <-. simpl. split; [done |].
    by apply list_lookup_insert_ne.
Qed.

Lemma run_msgs_other_plane channel :
  forall st st', run_msgs self idx channel st = Ok st' ->
  roll st' !! j = roll st !! j /\
  register_timbre st' !! j = register_timbre st !! j.
Proof using Hj.
  induction channel as [|msg rest IH]; intros st st' H; cbn [run_msgs] in H.
  - by injection H as <-.
  - bind_inv H as st1 H1. apply handle_msg_other_plane in H1 as [H1 H1'].
    apply IH in H as [H H']. split; congruence.
Qed.

Lemma close_loop_other_plane keys :
  forall r reg r' reg', close_loop idx keys (r, reg) = Ok (r', reg') ->
  r' !! j = r !! j.
Proof using Hj.
  induction keys as [|key rest IH]; intros r reg r' reg' H; cbn [close_loop] in H.
  - by injection H as <- <-.
  - bind_inv H as r1 Hr1. destruct (idx <? length reg)%nat; [| discriminate].
    apply IH in H. rewrite H.
    destruct (reg !! key) as [[[e i]|]|]; try (by injection Hr1 as <-).
    by eapply roll_assign_other_plane.
Qed.

Lemma channel_pass_other_plane channel st st' :
  channel_pass self idx channel st = Ok st' ->
  roll st' !! j = roll st !! j /\
  register_timbre st' !! j = register_timbre st !! j.
Proof using Hj.
  unfold channel_pass. intros H. bind_inv H as st1 H1.
  bind_inv H as p Hp. destruct p as [r2 reg2]. injection H as <-. simpl.
  apply run_msgs_other_plane in H1 as [H1 H1']. simpl in H1, H1'.
  apply close_loop_other_plane in Hp. split; congruence.
Qed.
End OtherPlanes.

(** X4: the passes over the channels [i], [i+1], ... write plane [idx] of
    [roll] and entry [idx] of [register_timbre] only for their own index
    [idx]: every other plane and entry is left as it was.  So a plane is
    final once its own pass has ended. *)
Theorem passes_write_own_plane_only self evs :
  forall i st st' j,
  channels_loop self i evs st = Ok st' ->
  (j < i \/ i + length evs <= j)%nat ->
  roll st' !! j = roll st !! j /\
  register_timbre st' !! j = register_timbre st !! j.
Proof.
  induction evs as [|c rest IH]; intros i st st' j H Hj;
    cbn [channels_loop] in H.
  - by injection H as <-.
  - bind_inv H as st1 H1. simpl in Hj.
    apply (channel_pass_other_plane self i j) in H1 as [H1 H1']; [| lia].
    apply (IH _ _ _ j) in H as [H H']; [| lia]. split; congruence.
Qed.

Lemma passes_write_own_plane_only_witness :
  exists st',
    channels_loop init_self 1 [[note_on 1 60 127 0; note_off 1 60 0 20]]
      (mkRaster [replicate 128 [7; 7]; replicate 128 [0; 0]]
                (replicate 128 None) [1; 1] 0 100 (100, 0) (127, 0)) = Ok st' /\
    roll st' !! 0%nat = Some (replicate 128 [7; 7]).
Proof.
  eexists. split; [vm_compute; reflexivity |].
  refine (proj1 (passes_write_own_plane_only init_self
    [[note_on 1 60 127 0; note_off 1 60 0 20]] 1
    (mkRaster [replicate 128 [7; 7]; replicate 128 [0; 0]]
              (replicate 128 None) [1; 1] 0 100 (100, 0) (127, 0)) _ 0 _ _)).
  - vm_compute; reflexivity.
  - left. lia.
Defined.

(** ** The closing loop *)

Lemma roll_assign_key roll idx key lo hi v plane row :
  roll !! idx = Some plane -> plane !! key = Some row ->
  roll_assign roll idx (Z.of_nat key) lo hi v =
    Ok (<[idx := <[key := fill_slice row lo hi v]> plane]> roll).
Proof.
  intros Hp Hr. unfold roll_assign. rewrite Hp.
  rewrite py_index_nonneg by (apply lookup_lt_Some in Hr; lia).
  simpl. by rewrite Nat2Z.id, Hr.
Qed.

(** The loop over [keys] on a register whose slot [idx] is cleared
    already. *)
Lemma close_loop_cleared idx keys :
  forall r reg plane,
  reg !! idx = Some None -> NoDup keys ->
  Forall (fun key => (key < length plane)%nat) keys ->
  r !! idx = Some plane ->
  exists r' plane',
    close_loop idx keys (r, reg) = Ok (r', reg) /\
    r' !! idx = Some plane' /\ length plane' = length plane /\
    forall key row, plane !! key = Some row ->
      plane' !! key =
        Some (if decide (key ∈ keys)
              then match reg !! key with
                   | Some (Some (e, i)) => fill_slice row e None i
                   | _ => row
                   end
              else row).
Proof.
  induction keys as [|key rest IH]; intros r reg plane Hidx Hnd Hlt Hp.
  - exists r, plane. split; [done |]. split; [done |]. split; [done |].
    intros key row Hrow. rewrite decide_False by apply not_elem_of_nil. done.
  - apply NoDup_cons in Hnd as [Hnotin Hnd].
    inversion Hlt as [|? ? Hkey Hrest]; subst.
    assert (is_Some (plane !! key)) as [row0 Hrow0]
      by (by apply lookup_lt_is_Some).
    assert ((idx <? length reg)%nat = true) as Hltb.
    { apply Nat.ltb_lt. by eapply lookup_lt_Some. }
    assert (<[idx := None]> reg = reg) as Hid by (by apply list_insert_id).
    set (plane1 := match reg !! key with
                   | Some (Some (e, i)) => <[key := fill_slice row0 e None i]> plane
                   | _ => plane
                   end).
    set (r1 := match reg !! key with
               | Some (Some (e, i)) => <[idx := plane1]> r
               | _ => r
               end).
    assert (r1 !! idx = Some plane1 /\ length plane1 = length plane) as [Hp1 Hlen1].
    { subst r1 plane1. destruct (reg !! key) as [[[e i]|]|]; try done.
      split; [| by rewrite length_insert].
      apply list_lookup_insert_eq. by eapply lookup_lt_Some. }
    destruct (IH r1 reg plane1 Hidx Hnd) as (r' & plane' & Hloop & Hp' & Hlen' & Hrows);
      [by rewrite Hlen1 | done |].
    exists r', plane'. split.
    { cbn [close_loop].
      assert ((match reg !! key with
               | Some (Some (e, i)) => roll_assign r idx (Z.of_nat key) e None i
               | _ => Ok r
               end) = Ok r1) as ->.
      { subst r1 plane1. destruct (reg !! key) as [[[e i]|]|]; try done.
        by apply roll_assign_key. }
      cbn [bind]. by rewrite Hltb, Hid. }
    split; [done |]. split; [congruence |].
    intros key' row Hrow. destruct (decide (key' = key)) as [->|Hne].
    + rewrite decide_True by apply list_elem_of_here.
      assert (row = row0) as -> by congruence.
      assert (plane1 !! key =
              Some match reg !! key with
                   | Some (Some (e, i)) => fill_slice row0 e None i
                   | _ => row0
                   end) as Hk1.
      { subst plane1. destruct (reg !! key) as [[[e i]|]|]; try done.
        apply list_lookup_insert_eq. by eapply lookup_lt_Some. }
      rewrite (Hrows _ _ Hk1). by rewrite decide_False.
    + assert (plane1 !! key' = Some row) as Hk1.
      { subst plane1. destruct (reg !! key) as [[[e i]|]|]; try done.
        by rewrite list_lookup_insert_ne. }
      rewrite (Hrows _ _ Hk1).
      destruct (decide (key' ∈ rest)) as [Hin|Hin].
      * rewrite decide_True; [done | by apply list_elem_of_further].
      * rewrite decide_False; [done |].
        intros [?|?]%elem_of_cons; done.
Qed.

(** X5: the closing loop of the pass of channel [idx] returns the register
    with slot [idx] cleared and every other slot as the messages left it,
    and in plane [idx] it assigns, for every pitch whose slot holds
    [(e, i)] when the loop reads it, intensity [i] to the bins from [e] to
    the last one; the rows of the other pitches are left as they are.  The
    slot of pitch [idx] itself is read after the first round has cleared it,
    unless [idx] is 0: a note left open on pitch [idx] by channel [idx > 0]
    is not painted. *)
Theorem unterminated_notes_closed idx reg r plane :
  (idx < length reg)%nat ->
  r !! idx = Some plane -> length plane = length reg ->
  exists r' plane',
    close_loop idx (seq 0 (length reg)) (r, reg) = Ok (r', <[idx := None]> reg) /\
    r' !! idx = Some plane' /\ length plane' = length plane /\
    forall key row, plane !! key = Some row ->
      plane' !! key =
        Some match closing_slot idx reg key with
             | Some (e, i) => fill_slice row e None i
             | None => row
             end.
Proof.
  intros Hidx Hp Hlen.
  destruct (length reg) as [|n'] eqn:Hn; [lia |].
  cbn [seq].
  assert (is_Some (plane !! 0%nat)) as [row0 Hrow0]
    by (apply lookup_lt_is_Some; lia).
  set (reg1 := <[idx := None]> reg).
  assert (reg1 !! idx = Some None) as Hidx1.
  { subst reg1. apply list_lookup_insert_eq. lia. }
  set (plane1 := match reg !! 0%nat with
                 | Some (Some (e, i)) => <[0%nat := fill_slice row0 e None i]> plane
                 | _ => plane
                 end).
  set (r1 := match reg !! 0%nat with
             | Some (Some (e, i)) => <[idx := plane1]> r
             | _ => r
             end).
  assert (r1 !! idx = Some plane1 /\ length plane1 = length plane) as [Hp1 Hlen1].
  { subst r1 plane1. destruct (reg !! 0%nat) as [[[e i]|]|]; try done.
    split; [| by rewrite length_insert].
    apply list_lookup_insert_eq. by eapply lookup_lt_Some. }
  destruct (close_loop_cleared idx (seq 1 n') r1 reg1 plane1 Hidx1)
    as (r' & plane' & Hloop & Hp' & Hlen' & Hrows).
  { apply NoDup_seq. }
  { apply Forall_forall. intros key Hkey. apply elem_of_seq in Hkey. lia. }
  { done. }
  exists r', plane'. split.
  { cbn [close_loop].
    assert ((match reg !! 0%nat with
             | Some (Some (e, i)) => roll_assign r idx (Z.of_nat 0) e None i
             | _ => Ok r
             end) = Ok r1) as ->.
    { subst r1 plane1. destruct (reg !! 0%nat) as [[[e i]|]|]; try done.
      by apply roll_assign_key. }
    cbn [bind].
    assert ((idx <? length reg)%nat = true) as -> by (apply Nat.ltb_lt; lia).
    exact Hloop. }
  split; [done |]. split; [congruence |].
  intros key row Hrow. unfold closing_slot.
  destruct key as [|key].
  - assert (row = row0) as -> by congruence.
    assert (plane1 !! 0%nat =
            Some match reg !! 0%nat with
                 | Some (Some (e, i)) => fill_slice row0 e None i
                 | _ => row0
                 end) as Hk1.
    { subst plane1. destruct (reg !! 0%nat) as [[[e i]|]|]; try done.
      apply list_lookup_insert_eq. by eapply lookup_lt_Some. }
    rewrite (Hrows _ _ Hk1).
    rewrite decide_False by (intros Hin%elem_of_seq; lia).
    replace ((0 =? idx)%nat && negb (idx =? 0)%nat) with false
      by (destruct idx; done).
    by destruct (reg !! 0%nat) as [[[e i]|]|].
  - assert (plane1 !! S key = Some row) as Hk1.
    { subst plane1. destruct (reg !! 0%nat) as [[[e i]|]|]; try done.
      by rewrite list_lookup_insert_ne. }
    rewrite (Hrows _ _ Hk1).
    rewrite decide_True
      by (apply elem_of_seq; apply lookup_lt_Some in Hrow; lia).
    destruct (decide (S key = idx)) as [<-|Hne].
    + rewrite Hidx1. rewrite Nat.eqb_refl. done.
    + subst reg1. rewrite list_lookup_insert_ne by done.
      replace (S key =? idx)%nat with false
        by (symmetry; by apply Nat.eqb_neq).
      by destruct (reg !! S key) as [[[e i]|]|].
Qed.

Lemma unterminated_notes_closed_witness :
  exists r',
    close_loop 1 (seq 0 3)
      ([[[0; 0]; [0; 0]; [0; 0]]; [[0; 0]; [0; 0]; [0; 0]]],
       [None; Some (0, 80); Some (1, 90)])
    = Ok (r', [None; None; Some (1, 90)]) /\
    r' !! 1%nat = Some [[0; 0]; [0; 0]; [0; 90]].
Proof.
  destruct (unterminated_notes_closed 1 [None; Some (0, 80); Some (1, 90)]
    [[[0; 0]; [0; 0]; [0; 0]]; [[0; 0]; [0; 0]; [0; 0]]]
    [[0; 0]; [0; 0]; [0; 0]]) as (r' & plane' & Hloop & Hp & Hlen & Hrows).
  - simpl; lia.
  - reflexivity.
  - reflexivity.
  - exists r'. split; [exact Hloop |]. rewrite Hp. f_equal.
    apply list_eq. intros [|[|[|key]]].
    + exact (Hrows 0%nat [0; 0] eq_refl).
    + exact (Hrows 1%nat [0; 0] eq_refl).
    + exact (Hrows 2%nat [0; 0] eq_refl).
    + simpl. apply lookup_ge_None. rewrite Hlen. simpl. lia.
Defined.

(** ** One note, from its note_on to its note_off *)

Lemma roll_assign_other_row roll idx note lo hi v roll' k :
  roll_assign roll idx note lo hi v = Ok roll' ->
  (forall plane, roll !! idx = Some plane -> py_index (length plane) note <> Ok k) ->
  row_at roll' idx k = row_at roll idx k.
Proof.
  unfold roll_assign, row_at.
  destruct (roll !! idx) as [plane|] eqn:Hp; [| discriminate].
  intros H Hk. bind_inv H as k' Hk'.
  destruct (plane !! k') as [row|] eqn:Hr; [| discriminate]. injection H as <-.
  rewrite list_lookup_insert_eq by (by eapply lookup_lt_Some).
  apply list_lookup_insert_ne. intros ->. by apply (Hk plane).
Qed.

Section OtherPitches.
Variable self : Self.
Variable idx : nat.
Variable k : nat.

Lemma handle_msg_other_pitch msg st st' :
  length (register_note st) = 128%nat -> plane_rows 128 (roll st) idx ->
  handle_msg self idx msg st = Ok st' ->
  length (register_note st') = 128%nat /\ plane_rows 128 (roll st') idx /\
  (touches k msg = false ->
     register_note st' !! k = register_note st !! k /\
     row_at (roll st') idx k = row_at (roll st) idx k).
Proof.
  intros Hlen Hplane. unfold handle_msg. intros H.
  bind_inv H as st1 H1. injection H as <-. simpl.
  destruct msg; try (by injection H1 as <-).
  - (* note_on *)
    bind_inv H1 as e He. bind_inv H1 as k' Hk'. bind_inv H1 as r1 Hr1.
    injection H1 as <-. simpl. rewrite Hlen in Hk'. rewrite Hk'.
    split; [by rewrite length_insert |].
    destruct (register_note st !! k') as [[[e0 i0]|]|] eqn:Hslot.
    + split; [by eapply roll_assign_plane_rows |].
      intros Hne%Nat.eqb_neq. split; [by apply list_lookup_insert_ne |].
      eapply roll_assign_other_row; [exact Hr1 |].
      intros plane Hp. rewrite (Hplane _ Hp), Hk'. congruence.
    + injection Hr1 as <-. split; [done |].
      intros Hne%Nat.eqb_neq. split; [by apply list_lookup_insert_ne | done].
    + injection Hr1 as <-. split; [done |].
      intros Hne%Nat.eqb_neq. split; [by apply list_lookup_insert_ne | done].
  - (* note_off *)
    bind_inv H1 as e He. bind_inv H1 as k' Hk'.
    destruct (register_note st !! k') as [[[e0 i0]|]|] eqn:Hslot; try discriminate.
    bind_inv H1 as r1 Hr1. injection H1 as <-. simpl.
    rewrite Hlen in Hk'. rewrite Hk'.
    split; [by rewrite length_insert |].
    split; [by eapply roll_assign_plane_rows |].
    intros Hne%Nat.eqb_neq. split; [by apply list_lookup_insert_ne |].
    eapply roll_assign_other_row; [exact Hr1 |].
    intros plane Hp. rewrite (Hplane _ Hp), Hk'. congruence.
  - (* program_change *)
    destruct (idx <? length (register_timbre st))%nat; [| discriminate].
    by injection H1 as <-.
Qed.

Lemma run_msgs_other_pitch channel :
  forall st st',
  length (register_note st) = 128%nat -> plane_rows 128 (roll st) idx ->
  forallb (fun m => negb (touches k m)) channel = true ->
  run_msgs self idx channel st = Ok st' ->
  length (register_note st') = 128%nat /\ plane_rows 128 (roll st') idx /\
  register_note st' !! k = register_note st !! k /\
  row_at (roll st') idx k = row_at (roll st) idx k.
Proof.
  induction channel as [|msg rest IH]; intros st st' Hlen Hplane Hno H;
    cbn [run_msgs] in H.
  - by injection H as <-.
  - cbn [forallb] in Hno. apply andb_true_iff in Hno as [Hmsg Hrest].
    apply negb_true_iff in Hmsg. bind_inv H as st1 H1.
    apply handle_msg_other_pitch in H1 as (Hlen1 & Hplane1 & Hsame); try done.
    destruct (Hsame Hmsg) as [Hreg1 Hrow1].
    apply IH in H as (Hlen' & Hplane' & Hreg' & Hrow'); try done.
    split; [done |]. split; [done |]. split; congruence.
Qed.
End OtherPitches.

(** X6: a [note_on] on a pitch whose slot is free, any messages that are
    not note messages of that pitch, and then the [note_off] of the pitch:
    the [note_off] does not raise, frees the slot again, and the row of the
    pitch is the row as it was before the [note_on] with the bins from the
    end bin of the [note_on] up to (not including) the end bin of the
    [note_off] set to the intensity computed at the [note_on], from the
    volume at that moment; controller messages in between do not change
    it. *)
Theorem note_painted_from_on_to_off
    self idx st c1 c2 p v1 v2 t1 t2 mid st2 row :
  0 < sr self -> 0 <= time_counter st -> 0 <= t1 -> 0 <= t2 ->
  Forall (fun m => 0 <= msg_time m) mid ->
  0 <= p < 128 ->
  length (register_note st) = 128%nat ->
  plane_rows 128 (roll st) idx ->
  row_at (roll st) idx (Z.to_nat p) = Some row ->
  register_note st !! Z.to_nat p = Some None ->
  forallb (fun m => negb (touches (Z.to_nat p) m)) mid = true ->
  run_msgs self idx (note_on c1 p v1 t1 :: mid) st = Ok st2 ->
  let e_on := (time_counter st + t1) / sr self in
  let e_off := (time_counter st + t1 + sum_time mid + t2) / sr self in
  exists st3 row3,
    handle_msg self idx (note_off c2 p v2 t2) st2 = Ok st3 /\
    register_note st3 !! Z.to_nat p = Some None /\
    row_at (roll st3) idx (Z.to_nat p) = Some row3 /\
    length row3 = length row /\
    forall b x, row !! b = Some x ->
      row3 !! b =
        Some (if (e_on <=? Z.of_nat b) && (Z.of_nat b <? e_off)
              then wrap_int8 (intensity_of (volume st) v1) else x).
Proof.
  intros Hsr Htc Ht1 Ht2 Hmid Hp Hlen Hplane Hrow Hslot Hno Hrun e_on e_off.
  assert (sr self <> 0) as Hsr0 by lia.
  cbn [run_msgs] in Hrun. bind_inv Hrun as st1 H1.
  destruct (note_on_row self idx c1 p v1 t1 st row Hsr0 Hp Hlen Hplane Hrow)
    as (st1' & H1' & Hreg1 & Htc1 & Hvol1 & Hplane1 & Hrow1).
  rewrite H1 in H1'. injection H1' as <-.
  rewrite Hslot in Hrow1. fold e_on in Hreg1.
  assert (length (register_note st1) = 128%nat) as Hlen1
    by (by rewrite Hreg1, length_insert).
  assert (register_note st1 !! Z.to_nat p
          = Some (Some (e_on, intensity_of (volume st) v1))) as Hslot1.
  { rewrite Hreg1. apply list_lookup_insert_eq. lia. }
  pose proof (run_msgs_time _ _ _ _ _ Hrun) as Htc2.
  destruct (run_msgs_other_pitch self idx (Z.to_nat p) mid st1 st2
              Hlen1 Hplane1 Hno Hrun) as (Hlen2 & Hplane2 & Hslot2 & Hrow2).
  rewrite Hslot1 in Hslot2. rewrite Hrow1 in Hrow2.
  destruct (note_off_row self idx c2 p v2 t2 st2 row _ _ Hsr0 Hp Hlen2 Hplane2
              Hrow2 Hslot2) as (st3 & H3 & Hreg3 & Hrow3).
  rewrite Htc2, Htc1 in Hrow3. fold e_off in Hrow3.
  exists st3, (fill_slice row e_on (Some e_off) (intensity_of (volume st) v1)).
  split; [done |]. split.
  { rewrite Hreg3. apply list_lookup_insert_eq. lia. }
  split; [done |]. split; [apply length_fill_slice |].
  intros b x Hx. apply lookup_fill_slice_nonneg; [| | done].
  - apply Z.div_pos; lia.
  - pose proof (sum_time_nonneg _ Hmid). apply Z.div_pos; lia.
Qed.

Lemma note_painted_from_on_to_off_witness :
  exists st2 st3,
    run_msgs init_self 0
      [note_on 0 60 127 10; control_change 0 7 0 10; note_on 0 61 127 0]
      (mkRaster [replicate 128 (replicate 5 0)] (replicate 128 None) [1]
                0 100 (100, 0) (127, 0)) = Ok st2 /\
    handle_msg init_self 0 (note_off 0 60 0 20) st2 = Ok st3 /\
    row_at (roll st3) 0 60 = Some [0; 100; 100; 100; 0].
Proof.
  assert (exists st2,
    run_msgs init_self 0
      [note_on 0 60 127 10; control_change 0 7 0 10; note_on 0 61 127 0]
      (mkRaster [replicate 128 (replicate 5 0)] (replicate 128 None) [1]
                0 100 (100, 0) (127, 0)) = Ok st2) as [st2 Hrun]
    by (eexists; vm_compute; reflexivity).
  destruct (note_painted_from_on_to_off init_self 0
    (mkRaster [replicate 128 (replicate 5 0)] (replicate 128 None) [1]
              0 100 (100, 0) (127, 0))
    0 0 60 127 0 10 20 [control_change 0 7 0 10; note_on 0 61 127 0] st2
    (replicate 5 0)) as (st3 & row3 & H3 & _ & Hrow & Hlen & Hcells).
  - reflexivity.
  - simpl; lia.
  - lia.
  - lia.
  - repeat constructor; simpl; lia.
  - lia.
  - reflexivity.
  - intros plane [= <-]. reflexivity.
  - reflexivity.
  - reflexivity.
  - reflexivity.
  - exact Hrun.
  - exists st2, st3. split; [exact Hrun |]. split; [exact H3 |].
    change (Z.to_nat 60) with 60%nat in Hrow. rewrite Hrow. f_equal.
    apply list_eq. intros [|[|[|[|[|b]]]]].
    + exact (Hcells 0%nat 0 eq_refl).
    + exact (Hcells 1%nat 0 eq_refl).
    + exact (Hcells 2%nat 0 eq_refl).
    + exact (Hcells 3%nat 0 eq_refl).
    + exact (Hcells 4%nat 0 eq_refl).
    + simpl. apply lookup_ge_None. rewrite Hlen. simpl. lia.
Defined.

(** ** get_roll called again *)

Lemma update_range_id r x : fst r <= x <= snd r -> update_range r x = r.
Proof.
  destruct r as [lo hi]. unfold update_range. simpl. intros H.
  assert ((lo >? x) = false) as -> by lia. simpl.
  by assert ((hi <? x) = false) as -> by lia.
Qed.

Lemma update_range_within r x r' :
  tightened (update_range r x) r' -> update_range r' x = r'.
Proof.
  intros [H1 H2]. apply update_range_id.
  pose proof (update_range_includes r x). lia.
Qed.

Section WithRanges.
Variable self : Self.
Variables irb nrb : Z * Z.

Lemma handle_msg_with_ranges idx msg st st' :
  handle_msg self idx msg st = Ok st' ->
  tightened (r_intensity_range st') irb -> tightened (r_note_range st') nrb ->
  handle_msg self idx msg (with_ranges irb nrb st) = Ok (with_ranges irb nrb st').
Proof.
  unfold handle_msg. intros H. bind_inv H as st1 H1. injection H as <-.
  cbn [r_intensity_range r_note_range]. intros Hi Hn.
  destruct msg; try (injection H1 as <-; reflexivity).
  - (* note_on *)
    bind_inv H1 as e He. bind_inv H1 as k Hk. bind_inv H1 as r1 Hr1.
    injection H1 as <-. cbn [r_intensity_range r_note_range] in Hi, Hn.
    cbn [with_ranges roll register_note register_timbre time_counter volume
         r_intensity_range r_note_range].
    rewrite He. cbn [bind]. rewrite Hk. cbn [bind]. rewrite Hr1. cbn [bind].
    rewrite (update_range_within _ _ _ Hi), (update_range_within _ _ _ Hn).
    reflexivity.
  - (* note_off *)
    bind_inv H1 as e He. bind_inv H1 as k Hk.
    destruct (register_note st !! k) as [[[e0 i0]|]|] eqn:Hslot; try discriminate.
    bind_inv H1 as r1 Hr1. injection H1 as <-.
    cbn [with_ranges roll register_note register_timbre time_counter volume
         r_intensity_range r_note_range].
    rewrite He. cbn [bind]. rewrite Hk. cbn [bind]. rewrite Hslot, Hr1.
    reflexivity.
  - (* program_change *)
    cbn [with_ranges roll register_note register_timbre time_counter volume
         r_intensity_range r_note_range].
    destruct (idx <? length (register_timbre st))%nat; [| discriminate].
    injection H1 as <-. reflexivity.
Qed.

Lemma run_msgs_with_ranges idx channel :
  forall st st', run_msgs self idx channel st = Ok st' ->
  tightened (r_intensity_range st') irb -> tightened (r_note_range st') nrb ->
  run_msgs self idx channel (with_ranges irb nrb st) = Ok (with_ranges irb nrb st').
Proof.
  induction channel as [|msg rest IH]; intros st st' H Hi Hn; cbn [run_msgs] in *.
  - by injection H as <-.
  - bind_inv H as st1 H1.
    pose proof (run_msgs_ranges _ _ _ _ _ H) as (Hi1 & Hn1 & _).
    rewrite (handle_msg_with_ranges _ _ _ _ H1).
    + cbn [bind]. by apply IH.
    + by eapply tightened_trans.
    + by eapply tightened_trans.
Qed.

Lemma channel_pass_with_ranges idx channel st st' :
  channel_pass self idx channel st = Ok st' ->
  tightened (r_intensity_range st') irb -> tightened (r_note_range st') nrb ->
  channel_pass self idx channel (with_ranges irb nrb st)
    = Ok (with_ranges irb nrb st').
Proof.
  unfold channel_pass. intros H. bind_inv H as st1 H1.
  bind_inv H as p Hp. destruct p as [r2 reg2]. injection H as <-.
  cbn [r_intensity_range r_note_range]. intros Hi Hn.
  change (pass_start (with_ranges irb nrb st))
    with (with_ranges irb nrb (pass_start st)).
  rewrite (run_msgs_with_ranges _ _ _ _ H1 Hi Hn). cbn [bind].
  cbn [with_ranges roll register_note register_timbre time_counter volume].
  rewrite Hp. reflexivity.
Qed.

Lemma channels_loop_with_ranges events :
  forall idx st st', channels_loop self idx events st = Ok st' ->
  tightened (r_intensity_range st') irb -> tightened (r_note_range st') nrb ->
  channels_loop self idx events (with_ranges irb nrb st)
    = Ok (with_ranges irb nrb st').
Proof.
  induction events as [|c rest IH]; intros idx st st' H Hi Hn;
    cbn [channels_loop] in *.
  - by injection H as <-.
  - bind_inv H as st1 H1.
    pose proof (channels_loop_ranges _ _ _ _ _ H) as (Hi1 & Hn1 & _).
    rewrite (channel_pass_with_ranges _ _ _ _ H1).
    + cbn [bind]. by apply IH.
    + by eapply tightened_trans.
    + by eapply tightened_trans.
Qed.
End WithRanges.

(** The loops read [self.sr] and nothing else of [self]. *)
Lemma handle_msg_sr self self' idx msg st :
  sr self = sr self' -> handle_msg self idx msg st = handle_msg self' idx msg st.
Proof. intros Hsr. unfold handle_msg. by rewrite Hsr. Qed.

Lemma run_msgs_sr self self' idx channel :
  sr self = sr self' ->
  forall st, run_msgs self idx channel st = run_msgs self' idx channel st.
Proof.
  intros Hsr. induction channel as [|msg rest IH]; intros st; cbn [run_msgs].
  - done.
  - rewrite (handle_msg_sr self self') by done.
    destruct (handle_msg self' idx msg st); cbn [bind]; [apply IH | done].
Qed.

Lemma channels_loop_sr self self' events :
  sr self = sr self' ->
  forall idx st,
  channels_loop self idx events st = channels_loop self' idx events st.
Proof.
  intros Hsr. induction events as [|c rest IH]; intros idx st;
    cbn [channels_loop].
  - done.
  - unfold channel_pass. rewrite (run_msgs_sr self self') by done.
    destruct (run_msgs self' idx c (pass_start st)); cbn [bind]; [| done].
    destruct (close_loop _ _ _) as [[r2 reg2]|]; cbn [bind]; [apply IH | done].
Qed.

(** X7: when [get_roll] has returned, calling it again on the object it
    left (the ranges it wrote included) returns the same matrix and leaves
    the two ranges as they are, whether the second call is served from the
    cache or runs the body with memory for the matrix: the ranges already
    hold every intensity and pitch of the events, and the matrix does not
    depend on them.  (A cache entry that served the first call is still
    there for the second.) *)
Theorem get_roll_again w self ev self1 r :
  get_roll w self ev = Ok (self1, r) ->
  forall w',
  index_max w' = index_max w ->
  (roll_hit w = true -> roll_hit w' = true) ->
  (roll_hit w' = false -> roll_cells self <= memory w') ->
  get_roll w' self1 ev = Ok (self1, r).
Proof.
  intros H w' Hidx Hhit Hmem.
  apply get_roll_inv_world in H
    as (w0 & st0 & st & H0 & Hloop & -> & -> & Hidx0 & _).
  pose proof (raster_init_fits _ _ _ H0) as (Hsr & Hbins & Hci & _).
  pose proof (raster_init_inv _ _ _ H0) as (t & Ht & _ & _ & Hst0).
  rewrite Hidx0 in Hbins, Hci.
  set (w1 := if roll_hit w' then unbounded w' else w').
  assert (index_max w1 = index_max w) as Hidx1
    by (subst w1; by destruct (roll_hit w')).
  assert (roll_cells self <= memory w1) as Hmem1.
  { subst w1. destruct (roll_hit w') eqn:E; [simpl; lia | by apply Hmem]. }
  unfold get_roll, st_cache, get_roll_body. fold w1.
  destruct (roll_hit w) eqn:Hw.
  - rewrite (Hhit eq_refl).
    rewrite (raster_init_ok w1 self); [| by rewrite Ht | done | lia | lia | done].
    assert (roll_bins self = t / sr self) as -> by (unfold roll_bins; by rewrite Ht).
    rewrite <- Hst0. cbn [bind]. rewrite Hloop. reflexivity.
  - set (ir' := r_intensity_range st). set (nr' := r_note_range st).
    assert (get_total_ticks (set_ranges ir' nr' self) = Ok t) as Ht' by exact Ht.
    rewrite (raster_init_ok w1 (set_ranges ir' nr' self));
      [| by rewrite Ht' | exact Hsr
       | change (0 <= roll_bins self <= index_max w1); lia
       | change (roll_cells self <= index_max w1); lia
       | exact Hmem1].
    change (roll_bins (set_ranges ir' nr' self)) with (roll_bins self).
    assert (roll_bins self = t / sr self) as -> by (unfold roll_bins; by rewrite Ht).
    cbn [bind set_ranges nch intensity_range note_range].
    rewrite (channels_loop_sr _ self) by done.
    pose proof (channels_loop_with_ranges self ir' nr' ev 0 st0 st Hloop
                  (tightened_refl _) (tightened_refl _)) as Hagain.
    rewrite Hst0 in Hagain. unfold with_ranges at 1 in Hagain.
    cbn [roll register_note register_timbre time_counter volume] in Hagain.
    rewrite Hagain. cbn [bind with_ranges roll]. by destruct (roll_hit w').
Qed.

Lemma get_roll_again_witness :
  exists self1 r,
    get_roll first_run
      (set_events [[note_on 0 60 64 0; note_off 0 60 0 30]] 1 init_self)
      [[note_on 0 60 64 0; note_off 0 60 0 30]] = Ok (self1, r) /\
    intensity_range self1 = (50, 50) /\
    get_roll first_run self1 [[note_on 0 60 64 0; note_off 0 60 0 30]]
      = Ok (self1, r).
Proof.
  eexists _, _. split; [vm_compute; reflexivity |].
  split; [reflexivity |].
  apply (get_roll_again first_run
    (set_events [[note_on 0 60 64 0; note_off 0 60 0 30]] 1 init_self)).
  - vm_compute; reflexivity.
  - reflexivity.
  - discriminate.
  - intros _. vm_compute. discriminate.
Defined.

(** ** The note range *)

Lemma update_range_min_max r x :
  update_range r x = (Z.min (fst r) x, Z.max (snd r) x).
Proof.
  destruct r as [lo hi]. unfold update_range. simpl.
  destruct (lo >? x) eqn:E1; simpl; destruct (hi <? x) eqn:E2; f_equal; lia.
Qed.

Lemma foldr_min_init a n l :
  foldr Z.min (Z.min a n) l = Z.min n (foldr Z.min a l).
Proof. induction l as [|x l IH]; simpl; [lia |]. rewrite IH. lia. Qed.

Lemma foldr_max_init a n l :
  foldr Z.max (Z.max a n) l = Z.max n (foldr Z.max a l).
Proof. induction l as [|x l IH]; simpl; [lia |]. rewrite IH. lia. Qed.

Lemma foldr_min_app a l1 l2 :
  foldr Z.min (foldr Z.min a l1) l2 = foldr Z.min a (l1 ++ l2).
Proof.
  induction l1 as [|x l1 IH]; simpl; [done |].
  rewrite <- IH. rewrite (Z.min_comm x). by rewrite foldr_min_init.
Qed.

Lemma foldr_max_app a l1 l2 :
  foldr Z.max (foldr Z.max a l1) l2 = foldr Z.max a (l1 ++ l2).
Proof.
  induction l1 as [|x l1 IH]; simpl; [done |].
  rewrite <- IH. rewrite (Z.max_comm x). by rewrite foldr_max_init.
Qed.

Lemma handle_msg_note_range self idx msg st st' :
  handle_msg self idx msg st = Ok st' ->
  r_note_range st' =
    (foldr Z.min (fst (r_note_range st)) (pitches_on [msg]),
     foldr Z.max (snd (r_note_range st)) (pitches_on [msg])).
Proof.
  unfold handle_msg. intros H. bind_inv H as st1 H1. injection H as <-.
  cbn [r_note_range].
  destruct msg; simpl; try (injection H1 as <-; by destruct (r_note_range st)).
  - bind_inv H1 as e He. bind_inv H1 as k Hk. bind_inv H1 as r1 Hr1.
    injection H1 as <-. cbn [r_note_range]. rewrite update_range_min_max.
    f_equal; lia.
  - bind_inv H1 as e He. bind_inv H1 as k Hk.
    destruct (register_note st !! k) as [[[e0 i0]|]|]; try discriminate.
    bind_inv H1 as r1 Hr1. injection H1 as <-. by destruct (r_note_range st).
  - destruct (idx <? length (register_timbre st))%nat; [| discriminate].
    injection H1 as <-. by destruct (r_note_range st).
Qed.

Lemma run_msgs_note_range self idx channel :
  forall st st', run_msgs self idx channel st = Ok st' ->
  r_note_range st' =
    (foldr Z.min (fst (r_note_range st)) (pitches_on channel),
     foldr Z.max (snd (r_note_range st)) (pitches_on channel)).
Proof.
  induction channel as [|msg rest IH]; intros st st' H; cbn [run_msgs] in H.
  - injection H as <-. by destruct (r_note_range st).
  - bind_inv H as st1 H1. rewrite (IH _ _ H).
    rewrite (handle_msg_note_range _ _ _ _ _ H1). cbn [fst snd].
    rewrite foldr_min_app, foldr_max_app.
    change (msg :: rest) with ([msg] ++ rest).
    unfold pitches_on. by rewrite omap_app.
Qed.

Lemma channels_loop_note_range self events :
  forall idx st st', channels_loop self idx events st = Ok st' ->
  r_note_range st' =
    (foldr Z.min (fst (r_note_range st)) (all_pitches_on events),
     foldr Z.max (snd (r_note_range st)) (all_pitches_on events)).
Proof.
  induction events as [|c rest IH]; intros idx st st' H;
    cbn [channels_loop] in H.
  - injection H as <-. by destruct (r_note_range st).
  - bind_inv H as st1 H1. rewrite (IH _ _ _ H).
    unfold channel_pass in H1. bind_inv H1 as st2 H2. bind_inv H1 as p Hp.
    destruct p as [r2 reg2]. injection H1 as <-. cbn [r_note_range].
    rewrite (run_msgs_note_range _ _ _ _ _ H2). cbn [fst snd pass_start r_note_range].
    rewrite foldr_min_app, foldr_max_app. reflexivity.
Qed.

Lemma foldr_min_elem a l : foldr Z.min a l = a \/ foldr Z.min a l ∈ l.
Proof.
  induction l as [|x l IH]; simpl; [by left |].
  destruct (Z.min_spec x (foldr Z.min a l)) as [[_ ->]|[_ ->]].
  - right. apply list_elem_of_here.
  - destruct IH as [IH|IH]; [by left | right; by apply list_elem_of_further].
Qed.

Lemma foldr_max_elem a l : foldr Z.max a l = a \/ foldr Z.max a l ∈ l.
Proof.
  induction l as [|x l IH]; simpl; [by left |].
  destruct (Z.max_spec x (foldr Z.max a l)) as [[_ ->]|[_ ->]].
  - destruct IH as [IH|IH]; [by left | right; by apply list_elem_of_further].
  - right. apply list_elem_of_here.
Qed.

Lemma foldr_min_le a l x : x ∈ l -> foldr Z.min a l <= x.
Proof.
  induction l as [|y l IH]; simpl; intros Hx; [by apply elem_of_nil in Hx |].
  apply elem_of_cons in Hx as [->|Hx]; [lia |]. specialize (IH Hx). lia.
Qed.

Lemma foldr_max_ge a l x : x ∈ l -> x <= foldr Z.max a l.
Proof.
  induction l as [|y l IH]; simpl; intros Hx; [by apply elem_of_nil in Hx |].
  apply elem_of_cons in Hx as [->|Hx]; [lia |]. specialize (IH Hx). lia.
Qed.

(** X8: when the body of [get_roll] has run (the call was not served from
    the cache), [note_range[0]] is the smallest and [note_range[1]] the
    largest of the value it had and the pitches of all [note_on] messages of
    the events; starting from [[127, 0]] with pitches in 0..127 and at least
    one [note_on], the two ends are the lowest and the highest pitch that a
    [note_on] has.  When the call was served from the cache, [note_range] is
    what it was before the call. *)
Theorem note_range_is_pitch_extent w self ev self1 r :
  get_roll w self ev = Ok (self1, r) ->
  note_range self1 =
    (if roll_hit w then note_range self
     else (foldr Z.min (fst (note_range self)) (all_pitches_on ev),
           foldr Z.max (snd (note_range self)) (all_pitches_on ev))) /\
  (roll_hit w = false ->
   forall p, p ∈ all_pitches_on ev ->
     fst (note_range self1) <= p <= snd (note_range self1)) /\
  (roll_hit w = false ->
   note_range self = (127, 0) ->
   Forall (fun p => 0 <= p <= 127) (all_pitches_on ev) ->
   all_pitches_on ev <> [] ->
   fst (note_range self1) ∈ all_pitches_on ev /\
   snd (note_range self1) ∈ all_pitches_on ev).
Proof.
  intros H. apply get_roll_inv in H as (w0 & st0 & st & H0 & Hloop & -> & ->).
  apply raster_init_inv in H0 as (t & _ & _ & _ & ->).
  pose proof (channels_loop_note_range _ _ _ _ _ Hloop) as Hnr.
  cbn [r_note_range] in Hnr.
  destruct (roll_hit w); [by repeat split |].
  cbn [set_ranges note_range]. rewrite Hnr. cbn [fst snd].
  split; [done |]. split.
  - intros _ p Hp. split; [by apply foldr_min_le | by apply foldr_max_ge].
  - intros _ -> Hall Hne. cbn [fst snd].
    destruct (all_pitches_on ev) as [|p0 ps] eqn:E; [done |].
    inversion Hall as [|? ? Hp0 Hps]; subst.
    split.
    + destruct (foldr_min_elem 127 (p0 :: ps)) as [Heq|Hin]; [| done].
      pose proof (foldr_min_le 127 (p0 :: ps) p0 (list_elem_of_here _ _)) as Hle.
      rewrite Heq in *. assert (p0 = 127) as -> by lia.
      apply list_elem_of_here.
    + destruct (foldr_max_elem 0 (p0 :: ps)) as [Heq|Hin]; [| done].
      pose proof (foldr_max_ge 0 (p0 :: ps) p0 (list_elem_of_here _ _)) as Hle.
      rewrite Heq in *. assert (p0 = 0) as -> by lia.
      apply list_elem_of_here.
Qed.

Lemma note_range_is_pitch_extent_witness :
  exists self1 r self2,
    get_roll first_run
      (set_events [[note_on 0 64 90 0; note_on 0 48 90 5; note_on 0 72 90 5]] 1
                  init_self)
      [[note_on 0 64 90 0; note_on 0 48 90 5; note_on 0 72 90 5]]
      = Ok (self1, r) /\
    note_range self1 = (48, 72) /\
    get_roll (mkWorld true true (2 ^ 63 - 1) (2 ^ 34))
      (set_events [[note_on 0 64 90 0; note_on 0 48 90 5; note_on 0 72 90 5]] 1
                  init_self)
      [[note_on 0 64 90 0; note_on 0 48 90 5; note_on 0 72 90 5]]
      = Ok (self2, r) /\
    note_range self2 = (127, 0).
Proof.
  eexists _, _, _. split; [vm_compute; reflexivity |].
  split.
  - edestruct (note_range_is_pitch_extent first_run
      (set_events [[note_on 0 64 90 0; note_on 0 48 90 5; note_on 0 72 90 5]] 1
                  init_self)
      [[note_on 0 64 90 0; note_on 0 48 90 5; note_on 0 72 90 5]])
      as (Heq & _ & _).
    + vm_compute; reflexivity.
    + rewrite Heq. reflexivity.
  - split; [vm_compute; reflexivity |].
    edestruct (note_range_is_pitch_extent
      (mkWorld true true (2 ^ 63 - 1) (2 ^ 34))
      (set_events [[note_on 0 64 90 0; note_on 0 48 90 5; note_on 0 72 90 5]] 1
                  init_self)
      [[note_on 0 64 90 0; note_on 0 48 90 5; note_on 0 72 90 5]])
      as (Heq & _ & _).
    + vm_compute; reflexivity.
    + rewrite Heq. reflexivity.
Defined.

(** ** What a constructed object satisfies *)

Lemma truediv_zero_tempo ticks tpb :
  truediv ticks (inject_Z ticks * (inject_Z 0 * (1 # 1000000) / inject_Z tpb))%Q
    = Raise ZeroDivisionError.
Proof.
  unfold truediv.
  assert (Qeq_bool (inject_Z ticks * (inject_Z 0 * (1 # 1000000) / inject_Z tpb)) 0
          = true) as ->; [| done].
  apply Qeq_bool_iff. unfold Qdiv. change (inject_Z 0) with 0%Q. ring.
Qed.

Lemma get_total_ticks_nonneg self t :
  nch self = length (events self) -> get_total_ticks self = Ok t ->
  0 <= t /\ (events self = [] -> t = 0).
Proof.
  intros Hn Ht. unfold get_total_ticks in Ht.
  destruct (total_ticks_loop_spec (events self) (nch self) 0%nat 0)
    as (t' & Ht' & H0 & _ & Hex); [lia |].
  rewrite Ht in Ht'. injection Ht' as <-. split; [done |].
  intros Hnil. destruct Hex as [-> | (j & c & _ & Hc & _)]; [done |].
  rewrite Hnil in Hc. by rewrite lookup_nil in Hc.
Qed.

(** X9: an object that [MidiFile(...)] has constructed has at least one
    channel, none of them empty, a positive length in ticks, a non-zero
    [ticks_per_beat] and an integer tempo that is not 0, and its [roll] has
    one plane per channel, each of 128 rows of [length_ticks // 10] bins:
    for every other file the constructor raises. *)
Theorem constructed_object_is_nonempty w tracks ticks_per_beat m :
  MidiFile_init w tracks ticks_per_beat = Ok m ->
  0 < length_ticks m /\
  ticks_per_beat <> 0 /\
  (exists t, get_tempo (mf_self m) = PInt t /\ t <> 0) /\
  sr (mf_self m) = 10 /\
  nch (mf_self m) = length (events (mf_self m)) /\
  (1 <= nch (mf_self m))%nat /\
  Forall (fun c => c <> []) (events (mf_self m)) /\
  get_total_ticks (mf_self m) = Ok (length_ticks m) /\
  length (mf_roll m) = nch (mf_self m) /\
  roll_shape 128 (Z.to_nat (length_ticks m / 10)) (mf_roll m).
Proof.
  unfold MidiFile_init. intros H.
  bind_inv H as p1 H1. destruct p1 as [self1 [ev n]].
  bind_inv H as p2 H2. destruct p2 as [self3 r].
  bind_inv H as lt Hlt. bind_inv H as ls Hls. bind_inv H as tps Htps.
  injection H as <-. cbn [length_ticks mf_self mf_roll].
  apply get_events_spec in H1 as (all & mt & Hd & -> & -> & ->).
  set (ev := filter_truthy all) in *.
  set (self1 := if events_hit w then init_self else set_meta mt init_self) in *.
  set (self2 := set_events ev (length ev) self1) in *.
  assert (sr self2 = 10 /\ nch self2 = length ev /\ events self2 = ev)
    as (Hsr2 & Hnch2 & Hev2)
    by (subst self2 self1; by destruct (events_hit w)).
  rewrite Hev2 in H2.
  apply get_roll_inv in H2 as (w0 & st0 & st & Hst0 & Hloop & -> & ->).
  set (self3 := if roll_hit w then self2
                else set_ranges (r_intensity_range st) (r_note_range st) self2)
    in *.
  assert (sr self3 = 10 /\ nch self3 = length ev /\ events self3 = ev /\
          get_total_ticks self3 = get_total_ticks self2)
    as (Hsr3 & Hnch3 & Hev3 & Htt3)
    by (subst self3; by destruct (roll_hit w)).
  rewrite Htt3 in Hlt.
  destruct (get_total_ticks_nonneg self2 lt) as [Hlt0 Hnil];
    [congruence | done |].
  unfold tick2second in Hls.
  destruct (get_tempo self3) as [t| |] eqn:Htempo; try discriminate.
  destruct (ticks_per_beat =? 0) eqn:Htpb; [discriminate |].
  injection Hls as <-.
  assert (lt <> 0) as Hlt_ne.
  { intros ->. by rewrite truediv_zero_ticks in Htps. }
  assert (t <> 0) as Ht_ne.
  { intros ->. by rewrite truediv_zero_tempo in Htps. }
  split; [lia |]. split; [by apply Z.eqb_neq |].
  split; [by exists t |]. split; [done |]. split; [congruence |].
  split.
  { rewrite Hnch3. destruct ev as [|c rest] eqn:E; [| simpl; lia].
    exfalso. apply Hlt_ne. apply Hnil. by rewrite Hev2. }
  split; [rewrite Hev3; apply filter_truthy_nonempty |].
  split; [by rewrite Htt3 |].
  apply raster_init_inv in Hst0 as (t' & Ht' & _ & _ & ->).
  rewrite Hlt in Ht'. injection Ht' as <-. rewrite Hsr2, Hnch2 in Hloop.
  apply (channels_loop_same_shape 128 (Z.to_nat (lt / 10))) in Hloop
    as [Hlen Hshape]. cbn [roll] in Hlen, Hshape.
  split.
  - rewrite Hlen, length_replicate. congruence.
  - apply Hshape. apply Forall_replicate. split; [apply length_replicate |].
    apply Forall_replicate, length_replicate.
Qed.

Lemma constructed_object_is_nonempty_witness :
  exists m,
    MidiFile_init first_run
      [[program_change 0 0 0; note_on 0 60 127 0; note_off 0 60 0 100]] 480
      = Ok m /\
    0 < length_ticks m /\ length (mf_roll m) = 1%nat.
Proof.
  eexists. split; [vm_compute; reflexivity |].
  edestruct (constructed_object_is_nonempty first_run
    [[program_change 0 0 0; note_on 0 60 127 0; note_off 0 60 0 100]] 480)
    as (Hpos & _ & _ & _ & _ & _ & _ & _ & Hlen & _).
  - vm_compute; reflexivity.
  - split; [exact Hpos | exact Hlen].
Defined.

(** ** When get_roll returns *)

Lemma handle_msg_lengths self idx msg st st' :
  handle_msg self idx msg st = Ok st' ->
  length (register_note st') = length (register_note st) /\
  length (register_timbre st') = length (register_timbre st).
Proof.
  unfold handle_msg. intros H. bind_inv H as st1 H1. injection H as <-. simpl.
  destruct msg; try (by injection H1 as <-).
  - bind_inv H1 as e He. bind_inv H1 as k Hk. bind_inv H1 as r1 Hr1.
    injection H1 as <-. simpl. by rewrite length_insert.
  - bind_inv H1 as e He. bind_inv H1 as k Hk.
    destruct (register_note st !! k) as [[[e0 i0]|]|]; try discriminate.
    bind_inv H1 as r1 Hr1. injection H1 as <-. simpl. by rewrite length_insert.
  - destruct (idx <? length (register_timbre st))%nat; [| discriminate].
    injection H1 as <-. simpl. by rewrite length_insert.
Qed.

Lemma sized_row n0 n2 st idx k :
  sized n0 n2 st -> (idx < n0)%nat -> (k < 128)%nat ->
  plane_rows 128 (roll st) idx /\ exists row, row_at (roll st) idx k = Some row.
Proof.
  intros (Hlen & Hshape & _) Hidx Hk.
  assert (is_Some (roll st !! idx)) as [plane Hp]
    by (apply lookup_lt_is_Some; lia).
  pose proof (proj1 (Forall_lookup _ _) Hshape _ _ Hp) as [Hrows _].
  split.
  - intros plane' Hp'. congruence.
  - unfold row_at. rewrite Hp. apply lookup_lt_is_Some. lia.
Qed.

Lemma handle_msg_sized n0 n2 self idx msg st st' :
  handle_msg self idx msg st = Ok st' -> sized n0 n2 st -> sized n0 n2 st'.
Proof.
  intros H (Hlen & Hshape & Hreg & Htim).
  pose proof (handle_msg_same_shape 128 n2 _ _ _ _ _ H) as [Hl Hs].
  pose proof (handle_msg_lengths _ _ _ _ _ H) as [Hr Ht].
  unfold sized. repeat split; try congruence. auto.
Qed.

Lemma handle_msg_returns n0 n2 self idx msg st active :
  sr self <> 0 -> sized n0 n2 st -> (idx < n0)%nat ->
  pitch_ok msg -> covers active (register_note st) ->
  well_bracketed active [msg] = true ->
  exists st',
    handle_msg self idx msg st = Ok st' /\
    forall rest, well_bracketed active (msg :: rest) = true ->
      exists active', covers active' (register_note st') /\
                      well_bracketed active' rest = true.
Proof.
  intros Hsr Hsized Hidx Hpitch Hcov Hwb.
  pose proof Hsized as (Hlen & Hshape & Hreg & Htim).
  destruct msg; simpl in Hpitch.
  - (* note_on *)
    destruct (sized_row n0 n2 st idx (Z.to_nat note) Hsized Hidx)
      as [Hplane [row Hrow]]; [lia |].
    destruct (note_on_row self idx channel note velocity time st row
                Hsr Hpitch Hreg Hplane Hrow)
      as (st' & H & Hreg' & _).
    exists st'. split; [done |]. intros rest Hrest. cbn [well_bracketed] in Hrest.
    eexists. split; [| exact Hrest].
    intros k Hk. rewrite Hreg'.
    destruct (decide (k = Z.to_nat note)) as [->|Hne].
    + rewrite list_lookup_insert_eq by lia. eauto.
    + rewrite list_lookup_insert_ne by done. apply Hcov.
      by rewrite list_lookup_insert_ne in Hk.
  - (* note_off *)
    cbn [well_bracketed] in Hwb.
    destruct (active !! Z.to_nat note) as [[|]|] eqn:Hact; try discriminate.
    destruct (Hcov _ Hact) as (e0 & i0 & Hslot).
    destruct (sized_row n0 n2 st idx (Z.to_nat note) Hsized Hidx)
      as [Hplane [row Hrow]]; [lia |].
    destruct (note_off_row self idx channel note velocity time st row e0 i0
                Hsr Hpitch Hreg Hplane Hrow Hslot)
      as (st' & H & Hreg' & _).
    exists st'. split; [done |]. intros rest Hrest. cbn [well_bracketed] in Hrest.
    rewrite Hact in Hrest.
    eexists. split; [| exact Hrest].
    intros k Hk. rewrite Hreg'.
    destruct (decide (k = Z.to_nat note)) as [->|Hne].
    + rewrite list_lookup_insert_eq in Hk by (by eapply lookup_lt_Some).
      discriminate.
    + rewrite list_lookup_insert_ne by done. apply Hcov.
      by rewrite list_lookup_insert_ne in Hk.
  - (* control_change *)
    eexists. split; [reflexivity |]. intros rest Hrest. by exists active.
  - (* program_change *)
    unfold handle_msg.
    assert ((idx <? length (register_timbre st))%nat = true) as ->
      by (apply Nat.ltb_lt; lia).
    eexists. split; [reflexivity |]. intros rest Hrest. by exists active.
  - eexists. split; [reflexivity |]. intros rest Hrest. by exists active.
  - eexists. split; [reflexivity |]. intros rest Hrest. by exists active.
  - eexists. split; [reflexivity |]. intros rest Hrest. by exists active.
  - eexists. split; [reflexivity |]. intros rest Hrest. by exists active.
  - eexists. split; [reflexivity |]. intros rest Hrest. by exists active.
Qed.

Lemma well_bracketed_head active msg rest :
  well_bracketed active (msg :: rest) = true ->
  well_bracketed active [msg] = true.
Proof.
  destruct msg; cbn [well_bracketed]; try done.
  by destruct (active !! Z.to_nat note) as [[|]|].
Qed.

Lemma run_msgs_returns n0 n2 self idx channel :
  forall active st,
  sr self <> 0 -> sized n0 n2 st -> (idx < n0)%nat ->
  Forall pitch_ok channel -> covers active (register_note st) ->
  well_bracketed active channel = true ->
  exists st', run_msgs self idx channel st = Ok st' /\ sized n0 n2 st'.
Proof.
  induction channel as [|msg rest IH];
    intros active st Hsr Hsized Hidx Hpitch Hcov Hwb; cbn [run_msgs].
  - by exists st.
  - inversion Hpitch as [|? ? Hmsg Hrest]; subst.
    destruct (handle_msg_returns n0 n2 self idx msg st active Hsr Hsized Hidx
                Hmsg Hcov (well_bracketed_head _ _ _ Hwb)) as (st1 & H1 & Hnext).
    destruct (Hnext rest Hwb) as (active' & Hcov' & Hwb').
    rewrite H1. cbn [bind].
    apply (IH active' st1); try done.
    by eapply handle_msg_sized.
Qed.

Lemma close_loop_returns idx keys :
  forall r reg plane,
  (idx < length reg)%nat -> r !! idx = Some plane ->
  Forall (fun key => (key < length plane)%nat) keys ->
  exists r' reg',
    close_loop idx keys (r, reg) = Ok (r', reg') /\ length reg' = length reg.
Proof.
  induction keys as [|key rest IH]; intros r reg plane Hidx Hp Hkeys;
    cbn [close_loop].
  - by exists r, reg.
  - inversion Hkeys as [|? ? Hkey Hrest]; subst.
    assert (is_Some (plane !! key)) as [row Hrow] by (by apply lookup_lt_is_Some).
    assert ((idx <? length reg)%nat = true) as Hltb by (by apply Nat.ltb_lt).
    destruct (reg !! key) as [[[e i]|]|] eqn:Hslot.
    + rewrite (roll_assign_key _ _ _ _ _ _ _ _ Hp Hrow). cbn [bind]. rewrite Hltb.
      destruct (IH (<[idx := <[key := fill_slice row e None i]> plane]> r)
                  (<[idx := None]> reg) (<[key := fill_slice row e None i]> plane))
        as (r' & reg' & H & Hlen).
      * by rewrite length_insert.
      * apply list_lookup_insert_eq. by eapply lookup_lt_Some.
      * by rewrite length_insert.
      * exists r', reg'. split; [done |]. by rewrite Hlen, length_insert.
    + cbn [bind]. rewrite Hltb.
      destruct (IH r (<[idx := None]> reg) plane) as (r' & reg' & H & Hlen);
        [by rewrite length_insert | done | done |].
      exists r', reg'. split; [done |]. by rewrite Hlen, length_insert.
    + cbn [bind]. rewrite Hltb.
      destruct (IH r (<[idx := None]> reg) plane) as (r' & reg' & H & Hlen);
        [by rewrite length_insert | done | done |].
      exists r', reg'. split; [done |]. by rewrite Hlen, length_insert.
Qed.

Lemma channel_pass_returns n0 n2 self idx channel st :
  sr self <> 0 -> sized n0 n2 st -> (idx < n0)%nat -> (idx < 128)%nat ->
  Forall pitch_ok channel ->
  well_bracketed (replicate 128 false) channel = true ->
  exists st', channel_pass self idx channel st = Ok st' /\ sized n0 n2 st'.
Proof.
  intros Hsr Hsized Hidx Hidx' Hpitch Hwb. unfold channel_pass.
  destruct (run_msgs_returns n0 n2 self idx channel (replicate 128 false)
              (pass_start st)) as (st1 & H1 & Hsized1); try done.
  { intros k Hk. apply lookup_replicate in Hk as [? _]. discriminate. }
  rewrite H1. cbn [bind].
  pose proof Hsized1 as (Hlen & Hshape & Hreg & Htim).
  assert (is_Some (roll st1 !! idx)) as [plane Hp]
    by (apply lookup_lt_is_Some; lia).
  pose proof (proj1 (Forall_lookup _ _) Hshape _ _ Hp) as [Hrows _].
  destruct (close_loop_returns idx (seq 0 (length (register_note st1)))
              (roll st1) (register_note st1) plane)
    as (r' & reg' & Hloop & Hlen'); [lia | done | |].
  { apply Forall_forall. intros key Hkey%elem_of_seq. lia. }
  rewrite Hloop. cbn [bind]. eexists. split; [reflexivity |].
  apply (close_loop_same_shape 128 n2) in Hloop as [Hl Hs].
  unfold sized. cbn [roll register_note register_timbre].
  repeat split; try done; [congruence | auto | congruence].
Qed.

Lemma channels_loop_returns n0 n2 self events :
  forall idx st,
  sr self <> 0 -> sized n0 n2 st ->
  (idx + length events <= n0)%nat -> (idx + length events <= 128)%nat ->
  Forall (Forall pitch_ok) events ->
  Forall (fun c => well_bracketed (replicate 128 false) c = true) events ->
  exists st', channels_loop self idx events st = Ok st' /\ sized n0 n2 st'.
Proof.
  induction events as [|c rest IH];
    intros idx st Hsr Hsized Hn0 H128 Hpitch Hwb; cbn [channels_loop].
  - by exists st.
  - inversion Hpitch as [|? ? Hc Hrest]; subst.
    inversion Hwb as [|? ? Hwc Hwrest]; subst. simpl in Hn0, H128.
    destruct (channel_pass_returns n0 n2 self idx c st) as (st1 & H1 & Hsized1);
      try done; try lia.
    rewrite H1. cbn [bind]. apply IH; try done; lia.
Qed.

(** X10: [get_roll] returns, without raising, whenever [sr > 0], [nch] is
    the number of channel lists, of which there are at most 128, every pitch
    is in 0..127, in every channel every [note_off] closes a [note_on] of
    the same pitch that came before it in that channel and is still open,
    and the matrix of [nch * 128 * (get_total_ticks() // sr)] cells is
    within the index range of numpy and, when the body runs, within the
    memory numpy can allocate. *)
Theorem get_roll_returns w self :
  0 < sr self ->
  nch self = length (events self) ->
  (length (events self) <= 128)%nat ->
  Forall (Forall pitch_ok) (events self) ->
  Forall (fun c => well_bracketed (replicate 128 false) c = true) (events self) ->
  roll_bins self <= index_max w ->
  roll_cells self <= index_max w ->
  (roll_hit w = false -> roll_cells self <= memory w) ->
  exists self1 r, get_roll w self (events self) = Ok (self1, r).
Proof.
  intros Hsr Hn H128 Hpitch Hwb Hbins Hcells Hmem.
  destruct (total_ticks_loop_spec (events self) (nch self) 0%nat 0)
    as (t & Ht & H0 & _); [lia |].
  fold (get_total_ticks self) in Ht.
  assert (roll_bins self = t / sr self) as Hb
    by (unfold roll_bins; by rewrite Ht).
  assert (0 <= t / sr self) as Hb0 by (apply Z.div_pos; lia).
  set (w1 := if roll_hit w then unbounded w else w).
  assert (index_max w1 = index_max w) as Hidx1
    by (subst w1; by destruct (roll_hit w)).
  assert (roll_cells self <= memory w1) as Hmem1.
  { subst w1. destruct (roll_hit w) eqn:E; [simpl; lia | by apply Hmem]. }
  unfold get_roll, st_cache, get_roll_body. fold w1.
  rewrite (raster_init_ok w1 self); [| by rewrite Ht | lia | lia | lia | done].
  rewrite Hb. cbn [bind].
  destruct (channels_loop_returns (nch self) (Z.to_nat (t / sr self)) self
              (events self) 0
              (mkRaster (replicate (nch self)
                           (replicate 128 (replicate (Z.to_nat (t / sr self)) 0)))
                        (replicate 128 None) (replicate (nch self) 1) 0 100
                        (intensity_range self) (note_range self)))
    as (st & Hloop & _); try done; try lia.
  - unfold sized. cbn [roll register_note register_timbre].
    rewrite !length_replicate. repeat split; try done.
    apply Forall_replicate. split; [apply length_replicate |].
    apply Forall_replicate, length_replicate.
  - rewrite Hloop. cbn [bind]. by eexists _, _.
Qed.

Lemma get_roll_returns_witness :
  exists self1 r,
    get_roll first_run
      (set_events [[note_on 0 60 90 0; note_on 0 64 90 0; note_off 0 60 0 20;
                    note_off 0 64 0 20]] 1 init_self)
      [[note_on 0 60 90 0; note_on 0 64 90 0; note_off 0 60 0 20;
        note_off 0 64 0 20]] = Ok (self1, r).
Proof.
  apply (get_roll_returns first_run
    (set_events [[note_on 0 60 90 0; note_on 0 64 90 0; note_off 0 60 0 20;
                  note_off 0 64 0 20]] 1 init_self)).
  - reflexivity.
  - reflexivity.
  - simpl; lia.
  - repeat constructor; simpl; lia.
  - repeat constructor.
  - vm_compute; discriminate.
  - vm_compute; discriminate.
  - intros _. vm_compute; discriminate.
Defined.

(** ** The intensity of a note *)

(** X11: with a volume and a velocity that are not negative, the intensity
    [volume * velocity // 127] a [note_on] registers is 0 exactly when
    [volume * velocity < 127] (at full volume 100: velocity 0 or 1), it does
    not decrease when the velocity or the volume grows, and the slot the
    [note_on] writes holds that value. *)
Theorem intensity_zero_and_monotone self idx c n t st k vol' vel vel' st' :
  0 <= volume st <= vol' -> 0 <= vel <= vel' ->
  py_index (length (register_note st)) n = Ok k ->
  handle_msg self idx (note_on c n vel t) st = Ok st' ->
  register_note st' !! k =
    Some (Some ((time_counter st + t) / sr self, intensity_of (volume st) vel)) /\
  (intensity_of (volume st) vel = 0 <-> volume st * vel < 127) /\
  intensity_of (volume st) vel <= intensity_of vol' vel'.
Proof.
  intros Hvol Hvel Hk H.
  destruct (handle_note_on_inv _ _ _ _ _ _ _ _ H) as [Hsr _].
  rewrite (handle_note_on _ _ _ _ _ _ _ _ Hsr Hk) in H.
  bind_inv H as r1 Hr1. injection H as <-. cbn [register_note].
  split; [apply list_lookup_insert_eq; by eapply py_index_lt |].
  unfold intensity_of. split.
  - split.
    + intros H0. apply Z.div_small_iff in H0; [| lia]. nia.
    + intros Hlt. apply Z.div_small. nia.
  - apply Z.div_le_mono; nia.
Qed.

Lemma intensity_zero_and_monotone_witness :
  exists st',
    handle_msg init_self 0 (note_on 0 60 1 0)
      (mkRaster [replicate 128 [0]] (replicate 128 None) [1] 0 100
                (100, 0) (127, 0)) = Ok st' /\
    register_note st' !! 60%nat = Some (Some (0, 0)).
Proof.
  eexists. split; [vm_compute; reflexivity |].
  refine (proj1 (intensity_zero_and_monotone init_self 0 0 60 0
    (mkRaster [replicate 128 [0]] (replicate 128 None) [1] 0 100
              (100, 0) (127, 0)) 60%nat 100 1 127 _ _ _ _ _)).
  - simpl; lia.
  - lia.
  - reflexivity.
  - vm_compute; reflexivity.
Defined.
